(** * orthopy: Gauss quadrature from recurrence coefficients

    A shallow embedding of [orthopy/schemes.py], [orthopy/c1/gegenbauer.py]
    and [orthopy/enr2/main.py].

    Exact numbers.  A sympy number is modelled by the real number it
    denotes, with a tag for its run-time type where the code inspects it
    ([isinstance]); the arithmetic of the exact backend ([*], [/], [**2],
    [sum], [sympy.simplify]) is the arithmetic of [R].  Whether sympy can
    decide [a < b] for two of its numbers is the library's answer
    ([sympy_decides]); when it cannot, [sorted] raises TypeError.

    Numeric numbers.  What mpmath, numpy and scipy compute is a [number]: a
    finite real, an infinity, a nan or a complex number.  Every operation of
    these libraries (conversions, square roots, powers, products, the two
    eigen-solvers) is a field of the record [libraries], and no theorem
    assumes that such an operation is exact: rounding is the library's, and
    where a theorem bounds an error, the error of each operation is a
    hypothesis at the numbers at hand.

    Libraries.  The functions the code imports from sympy, mpmath, numpy and
    scipy are fields of [libraries]; they may raise.  What a theorem needs of
    [Matrix.eigenvects], which computes exactly, is a hypothesis at the
    input at hand.

    Effects.  Exceptions are the [Raise] results of a [result]; the only
    state is mpmath's global context [mp], of which [mp.dps] is kept. *)

From Stdlib Require Import String.
From Stdlib Require Import Reals Lra Lia ZArith Bool Arith PeanoNat List.
From Stdlib Require Import Permutation Sorted Classical.
Import ListNotations.

Open Scope R_scope.

(* ================================================================== *)
(** * Python values and effects *)

Module Py.

(** The exceptions the modelled code and its libraries raise. *)
Inductive exn : Type :=
| AssertionError
| IndexError
| ValueError
| KeyError
| RuntimeError
| TypeError
| MatrixError
| LinAlgError.

Inductive result (A : Type) : Type :=
| Ok (a : A)
| Raise (e : exn).

Arguments Ok {A} a.
Arguments Raise {A} e.

Definition bind {A B : Type} (r : result A) (k : A -> result B) : result B :=
  match r with
  | Ok a => k a
  | Raise e => Raise e
  end.

Definition is_ok {A : Type} (r : result A) : bool :=
  match r with
  | Ok _ => true
  | Raise _ => false
  end.

(** A [for] loop whose body may raise. *)
Fixpoint foldM {A B : Type} (body : A -> B -> result A) (l : list B) (acc : A)
  : result A :=
  match l with
  | [] => Ok acc
  | b :: rest => bind (body acc b) (foldM body rest)
  end.

(** A list comprehension whose element expression may raise. *)
Fixpoint mapM {A B : Type} (f : A -> result B) (l : list A) : result (list B) :=
  match l with
  | [] => Ok []
  | a :: rest => bind (f a) (fun b => bind (mapM f rest) (fun bs => Ok (b :: bs)))
  end.

(** [l[i]]: IndexError out of range. *)
Definition getitem {A : Type} (l : list A) (i : nat) : result A :=
  match nth_error l i with
  | Some a => Ok a
  | None => Raise IndexError
  end.

(** The run-time type of a number. *)
Inductive numtype : Type :=
| SympyRational
| SympyExpr
| SympyFloat
| MpmathFloat
| NumpyFloat.

(** An element of [alpha] or [beta]: its run-time type and the real number
    it denotes. *)
Definition item : Type := (numtype * R)%type.

(** The run-time type of a sequence of numbers. *)
Inductive seqtype : Type :=
| PyList
| NdArray.

(** A one-dimensional sequence of numbers, as [alpha] and [beta] are. *)
Record pyseq : Type := mkseq {
  seq_type : seqtype;
  seq_items : list item
}.

Definition values (s : pyseq) : list R := map snd (seq_items s).

Definition is_Rational (t : numtype) : bool :=
  match t with
  | SympyRational => true
  | _ => false
  end.

Definition is_ndarray (s : pyseq) : bool :=
  match seq_type s with
  | NdArray => true
  | PyList => false
  end.

(** [s[0] = (t, v)]: item assignment, IndexError on an empty sequence. *)
Definition setitem0 (s : pyseq) (t : numtype) (v : R) : result pyseq :=
  match seq_items s with
  | [] => Raise IndexError
  | _ :: rest => Ok (mkseq (seq_type s) ((t, v) :: rest))
  end.

(** A number as a numeric library holds it (an IEEE double, an mpmath [mpf]
    or [mpc], a sympy Float): its value when it is a finite real, and
    otherwise what it is. *)
Inductive number : Type :=
| Finite (v : R)
| Infinite (negative : bool)
| NaN
| Complex (re im : R).

End Py.

Import Py.

Notation "x <- e ;; k" := (bind e (fun x => k))
  (at level 61, e at next level, right associativity).
Notation "' p <- e ;; k" := (bind e (fun p => k))
  (at level 61, p pattern, e at next level, right associativity).

(* ================================================================== *)
(** * Vectors and matrices *)

Definition vector : Type := list R.
(** A matrix is the list of its rows, as the nested list [A] of
    [_sympy_tridiag] is. *)
Definition matrix : Type := list (list R).

Definition vnth (v : vector) (k : nat) : R := nth k v 0.
Definition entry (A : matrix) (i j : nat) : R := nth j (nth i A []) 0.

(** [l[i] = v] on a list, for an index in range. *)
Fixpoint set_nth {A : Type} (l : list A) (i : nat) (v : A) : list A :=
  match l, i with
  | [], _ => []
  | _ :: t, O => v :: t
  | h :: t, S i' => h :: set_nth t i' v
  end.

(** [A[i][j] = v] on a nested list, for indices in range. *)
Definition set_entry (A : matrix) (i j : nat) (v : R) : matrix :=
  set_nth A i (set_nth (nth i A []) j v).

(** [A] has [n] rows of length [n]. *)
Definition square (n : nat) (A : matrix) : Prop :=
  length A = n /\ forall i, (i < n)%nat -> length (nth i A []) = n.

(** [sum(l)]. *)
Definition Rsum (l : list R) : R := fold_left Rplus l 0.

(** The sum of [f 0 .. f (n-1)]. *)
Fixpoint big_sum (f : nat -> R) (n : nat) : R :=
  match n with
  | O => 0
  | S m => big_sum f m + f m
  end.

Definition dot (n : nat) (u v : nat -> R) : R := big_sum (fun k => u k * v k) n.

Definition mat_vec (n : nat) (M : nat -> nat -> R) (v : nat -> R) (i : nat) : R :=
  big_sum (fun j => M i j * v j) n.

(** [v] is an eigenvector of the [n] by [n] matrix [M] for [lam]. *)
Definition eigenpair (n : nat) (M : nat -> nat -> R) (lam : R) (v : nat -> R) : Prop :=
  (forall i, (i < n)%nat -> mat_vec n M v i = lam * v i) /\
  (exists k, (k < n)%nat /\ v k <> 0).


(** The Jacobi matrix of the recurrence coefficients: diagonal [alpha[i]],
    off-diagonals [sq beta[i+1]] between [i] and [i+1]. *)
Definition jacobi_entry (sq : R -> R) (alpha beta : list R) (i j : nat) : R :=
  if (i =? j)%nat then nth i alpha 0
  else if (j =? i + 1)%nat then sq (nth j beta 0)
  else if (i =? j + 1)%nat then sq (nth i beta 0)
  else 0.

(* ================================================================== *)
(** * orthopy/schemes.py *)

Module Schemes.

(** mpmath's global context [mp]; [mp.dps] is its decimal precision, a
    positive integer. *)
Record mp_context : Type := mk_mp { dps : positive }.

(** A computation that reads and writes [mp] and may raise: the context it
    leaves is returned also when it raises. *)
Definition M (A : Type) : Type := mp_context -> result A * mp_context.

Definition lift {A : Type} (r : result A) : M A := fun mp => (r, mp).

Definition bindM {A B : Type} (m : M A) (k : A -> M B) : M B :=
  fun mp =>
    match m mp with
    | (Ok a, mp') => k a mp'
    | (Raise e, mp') => (Raise e, mp')
    end.

(** An item of [Matrix.eigenvects()]: eigenvalue, multiplicity, basis of the
    eigenspace. *)
Definition eigen_item : Type := (R * nat * list vector)%type.

(** What a backend returns: the exact backend two lists of sympy numbers,
    the numeric backends two arrays of the numbers they computed. *)
Inductive rule : Type :=
| Lists (x w : list R)
| Arrays (x w : list number).

(** What the module imports from sympy, mpmath, numpy and scipy. *)
Record libraries : Type := {
  (** [sympy.sqrt] *)
  sympy_sqrt : R -> R;
  (** [Matrix.eigenvects] *)
  sympy_eigenvects : matrix -> result (list eigen_item);
  (** whether sympy can evaluate [bool(a < b)] *)
  sympy_decides : R -> R -> bool;
  (** [sympy.N(x, n)] *)
  sympy_N : R -> positive -> R;
  (** [sympy.Float] of an [mpf] *)
  sympy_Float : mp_context -> number -> number;
  (** [mp.sqrt] of an element of [beta], which it converts first *)
  mp_sqrt : mp_context -> item -> result number;
  (** the conversion [mp.matrix] applies to an element of [alpha] *)
  mp_convert : mp_context -> item -> result number;
  (** [mp.power] *)
  mp_power : mp_context -> number -> nat -> number;
  (** [b * y] for an element [b] of [beta] and an [mpf] [y] *)
  mul_mpf : mp_context -> item -> number -> result number;
  (** [tridiag_eigen(mp, d, e, z)]: the contents of [d] and [z] when it
      returns *)
  tridiag_eigen : mp_context -> list number -> list number -> list (list number) ->
                  result (list number * list (list number));
  (** [numpy.sqrt], element by element *)
  numpy_sqrt : item -> result number;
  (** [scipy.power], element by element *)
  scipy_power : number -> nat -> number;
  (** [scipy.real], element by element *)
  scipy_real : number -> number;
  (** [b * y] for an element [b] of the array [beta] and a double [y] *)
  mul_float : item -> number -> number;
  (** [scipy.linalg.eig_banded(A, lower=False)] *)
  eig_banded : list (list number) -> result (list number * list (list number))
}.

(** [orthopy.recurrence_coefficients], which is not among the sources: each
    function returns the pair [(alpha, beta)]. *)
Record recurrence_coefficients : Type := {
  rc_legendre : nat -> string -> result (pyseq * pyseq);
  rc_jacobi : nat -> R -> R -> string -> result (pyseq * pyseq);
  rc_chebyshev1 : nat -> result (pyseq * pyseq);
  rc_chebyshev2 : nat -> result (pyseq * pyseq);
  rc_laguerre : nat -> result (pyseq * pyseq);
  rc_laguerre_generalized : nat -> R -> result (pyseq * pyseq);
  rc_hermite : nat -> result (pyseq * pyseq)
}.

(** [x < y] on real numbers. *)
Definition Rltb (x y : R) : bool := if Rlt_dec x y then true else false.

(** [sorted(l, key=key)], where [lt] evaluates [bool(a < b)] on two keys
    and may raise.  The comparisons are those of an insertion sort that
    starts at the right end; which pairs CPython compares is its own
    choice, so the theorems below speak of a sort whose keys can all be
    compared, or of which no two can. *)
Fixpoint insert_by (lt : R -> R -> result bool) (key : nat -> R) (i : nat)
  (l : list nat) : result (list nat) :=
  match l with
  | [] => Ok [i]
  | j :: rest =>
      c <- lt (key j) (key i) ;;
      if c then (r <- insert_by lt key i rest ;; Ok (j :: r)) else Ok (i :: l)
  end.

Fixpoint sorted (lt : R -> R -> result bool) (key : nat -> R) (l : list nat)
  : result (list nat) :=
  match l with
  | [] => Ok []
  | i :: rest => s <- sorted lt key rest ;; insert_by lt key i s
  end.

(** [_sympy_tridiag(a, b)]: the two assignment loops run over indices in
    range, so no assignment raises. *)
Definition _sympy_tridiag (a b : list R) : result matrix :=
  let n := length a in
  if negb (n =? length b)%nat then Raise AssertionError else
  let A := repeat (repeat 0 n) n in
  let A := fold_left (fun A i => set_entry A i i (nth i a 0)) (seq 0 n) A in
  let A := fold_left
             (fun A i =>
                let A := set_entry A i (i + 1) (nth (i + 1) b 0) in
                set_entry A (i + 1) i (nth (i + 1) b 0))
             (seq 0 (n - 1)) A in
  Ok A.

(** The body of the loop over [A.eigenvects()]. *)
Definition sympy_item (beta : list R) (acc : list R * list R) (item : eigen_item)
  : result (list R * list R) :=
  let '(val, multiplicity, vec) := item in
  let '(x, w) := acc in
  if negb (multiplicity =? 1)%nat then Raise AssertionError else
  if negb (length vec =? 1)%nat then Raise AssertionError else
  vec0 <- getitem vec 0 ;;
  let norm2 := Rsum (map (fun v => v ^ 2) vec0) in
  b0 <- getitem beta 0 ;;
  v0 <- getitem vec0 0 ;;
  Ok (x ++ [val], w ++ [b0 * v0 ^ 2 / norm2]).

(** The number a float array holds for an element. *)
Definition as_number (it : item) : number := Finite (snd it).

Section Backends.

Variable L : libraries.

(** [bool(a < b)] on two sympy numbers: TypeError when sympy cannot decide
    the relation. *)
Definition sympy_lt (a b : R) : result bool :=
  if sympy_decides L a b then Ok (Rltb a b) else Raise TypeError.

(** The matrix the exact backend hands to [eigenvects]. *)
Definition sympy_matrix (alpha beta : pyseq) : result matrix :=
  a0 <- getitem (seq_items alpha) 0 ;;
  if negb (is_Rational (fst a0)) then Raise AssertionError else
  _sympy_tridiag (values alpha) (map (sympy_sqrt L) (values beta)).

(** The exact backend after the call of [eigenvects]: the loop over the
    items and the sort by node. *)
Definition sympy_collect (beta : list R) (items : list eigen_item) : result rule :=
  '(x, w) <- foldM (sympy_item beta) items ([], []) ;;
  order <- sorted sympy_lt (fun i => nth i x 0) (seq 0 (length x)) ;;
  Ok (Lists (map (fun i => nth i x 0) order) (map (fun i => nth i w 0) order)).

Definition _gauss_from_coefficients_sympy (alpha beta : pyseq) : result rule :=
  A <- sympy_matrix alpha beta ;;
  items <- sympy_eigenvects L A ;;
  sympy_collect (values beta) items.

(** The vector [b] of off-diagonal entries the arbitrary-precision backend
    builds: [mp.zeros(n, 1)], then [b[i] = mp.sqrt(beta[i+1])]. *)
Definition mpmath_offdiag (mp : mp_context) (n : nat) (beta : list item)
  : result (list number) :=
  foldM (fun b i =>
           bt <- getitem beta (i + 1) ;;
           s <- mp_sqrt L mp bt ;;
           Ok (set_nth b i s))
        (seq 0 (n - 1)) (repeat (Finite 0) n).

(** [z = mp.zeros(1, n); z[0, 0] = 1]. *)
Definition mpmath_z (n : nat) : result (list (list number)) :=
  match n with
  | O => Raise IndexError
  | S _ => Ok [set_nth (repeat (Finite 0) n) 0 (Finite 1)]
  end.

(** The arbitrary-precision backend after the call of [tridiag_eigen]:
    the nodes are the entries of [d] as sympy Floats, the weights are
    [beta[0]] times the squared entries of [z]. *)
Definition mpmath_collect (mp : mp_context) (beta : list item)
  (out : list number * list (list number)) : result rule :=
  let '(d', z') := out in
  let x := map (sympy_Float L mp) d' in
  w <- mapM (fun ww => b0 <- getitem beta 0 ;; mul_mpf L mp b0 (mp_power L mp ww 2))
            (concat z') ;;
  Ok (Arrays x w).

Definition mpmath_body (mp : mp_context) (alpha beta : pyseq) : result rule :=
  let n := length (values alpha) in
  b <- mpmath_offdiag mp n (seq_items beta) ;;
  z <- mpmath_z n ;;
  d <- mapM (mp_convert L mp) (seq_items alpha) ;;
  out <- tridiag_eigen L mp d b z ;;
  mpmath_collect mp (seq_items beta) out.

Definition _gauss_from_coefficients_mpmath (alpha beta : pyseq) (decimal_places : positive)
  : M rule :=
  fun _ =>
    let mp := mk_mp decimal_places in
    (mpmath_body mp alpha beta, mp).

(** The array the floating backend hands to [eig_banded]:
    [numpy.sqrt(beta)] is evaluated first, then [vstack] stacks it on
    [alpha] and raises ValueError when the two lengths differ. *)
Definition numpy_band (alpha beta : pyseq) : result (list (list number)) :=
  if negb (is_ndarray alpha) then Raise AssertionError else
  if negb (is_ndarray beta) then Raise AssertionError else
  r <- mapM (numpy_sqrt L) (seq_items beta) ;;
  if negb (length r =? length (values alpha))%nat then Raise ValueError else
  Ok [r; map as_number (seq_items alpha)].

(** The floating backend after the call of [eig_banded]. *)
Definition numpy_collect (beta : list item)
  (out : list number * list (list number)) : result rule :=
  let '(x, V) := out in
  b0 <- getitem beta 0 ;;
  V0 <- getitem V 0 ;;
  Ok (Arrays x (map (fun v => mul_float L b0 (scipy_real L (scipy_power L v 2))) V0)).

Definition _gauss_from_coefficients_numpy (alpha beta : pyseq) : result rule :=
  A <- numpy_band alpha beta ;;
  out <- eig_banded L A ;;
  numpy_collect (seq_items beta) out.

Definition custom (alpha beta : pyseq) (mode : string) (decimal_places : positive)
  : M rule :=
  if (mode =? "sympy")%string then
    lift (_gauss_from_coefficients_sympy alpha beta)
  else if (mode =? "mpmath")%string then
    _gauss_from_coefficients_mpmath alpha beta decimal_places
  else if negb (mode =? "numpy")%string then
    lift (Raise AssertionError)
  else
    lift (_gauss_from_coefficients_numpy alpha beta).

Variable RC : recurrence_coefficients.

Definition legendre (n : nat) (decimal_places : positive) : M rule :=
  bindM (lift (rc_legendre RC n "sympy"))
    (fun '(alpha, beta) => custom alpha beta "mpmath" decimal_places).

Definition jacobi (a b : R) (n : nat) (decimal_places : positive) : M rule :=
  bindM (lift (rc_jacobi RC n a b "sympy"))
    (fun '(alpha, beta) => custom alpha beta "mpmath" decimal_places).

(** [beta[0] = sympy.N(beta[0], decimal_places)]: the new element is a
    sympy Float. *)
Definition round_beta0 (beta : pyseq) (decimal_places : positive) : result pyseq :=
  b0 <- getitem (values beta) 0 ;;
  setitem0 beta SympyFloat (sympy_N L b0 decimal_places).

Definition chebyshev1 (n : nat) (decimal_places : positive) : M rule :=
  bindM (lift (rc_chebyshev1 RC n))
    (fun '(alpha, beta) =>
       bindM (lift (round_beta0 beta decimal_places))
         (fun beta => custom alpha beta "mpmath" decimal_places)).

Definition chebyshev2 (n : nat) (decimal_places : positive) : M rule :=
  bindM (lift (rc_chebyshev2 RC n))
    (fun '(alpha, beta) =>
       bindM (lift (round_beta0 beta decimal_places))
         (fun beta => custom alpha beta "mpmath" decimal_places)).

Definition laguerre (n : nat) (decimal_places : positive) : M rule :=
  bindM (lift (rc_laguerre RC n))
    (fun '(alpha, beta) => custom alpha beta "mpmath" decimal_places).

Definition laguerre_generalized (n : nat) (a : R) (decimal_places : positive)
  : M rule :=
  bindM (lift (rc_laguerre_generalized RC n a))
    (fun '(alpha, beta) => custom alpha beta "mpmath" decimal_places).

Definition hermite (n : nat) (decimal_places : positive) : M rule :=
  bindM (lift (rc_hermite RC n))
    (fun '(alpha, beta) =>
       bindM (lift (round_beta0 beta decimal_places))
         (fun beta => custom alpha beta "mpmath" decimal_places)).

End Backends.

End Schemes.

(* ================================================================== *)
(** * What is asked of the libraries

    [Matrix.eigenvects] computes exactly; what its documentation promises
    of the result is stated here.  Nothing of the kind is stated of the
    numeric solvers, whose results are rounded. *)

Module Contract.

Import Schemes.

Definition item_value (it : eigen_item) : R := fst (fst it).
Definition item_multiplicity (it : eigen_item) : nat := snd (fst it).
Definition item_basis (it : eigen_item) : list vector := snd it.

(** [Matrix.eigenvects()] on a real symmetric [n] by [n] matrix: one item per
    distinct eigenvalue, the multiplicities add up to [n], and each basis is
    a non-empty list of at most [multiplicity] eigenvectors. *)
Definition eigenvects_spec (n : nat) (A : matrix) (items : list eigen_item) : Prop :=
  NoDup (map item_value items) /\
  fold_right (fun it s => (item_multiplicity it + s)%nat) 0%nat items = n /\
  forall it, In it items ->
    (1 <= length (item_basis it) <= item_multiplicity it)%nat /\
    forall v, In v (item_basis it) ->
      length v = n /\ eigenpair n (entry A) (item_value it) (vnth v).

(** [eigenvects] keeps its promise at the matrix the exact backend builds
    from [alpha] and [beta], if it answers there. *)
Definition eigenvects_contract (L : libraries) (alpha beta : pyseq) : Prop :=
  forall A items,
    sympy_matrix L alpha beta = Ok A ->
    sympy_eigenvects L A = Ok items ->
    eigenvects_spec (length (values alpha)) A items.

(** Square roots of positive numbers are positive. *)
Definition sqrt_positive (sq : R -> R) : Prop := forall t, 0 < t -> 0 < sq t.

(** sympy can order every two of the numbers of [l]. *)
Definition decides_all (L : libraries) (l : list R) : Prop :=
  forall a b, In a l -> In b l -> sympy_decides L a b = true.


(** The stable sort of indices by key that [sorted] computes when every
    comparison answers. *)
Fixpoint insert_stable (key : nat -> R) (i : nat) (l : list nat) : list nat :=
  match l with
  | [] => [i]
  | j :: rest =>
      if Rltb (key j) (key i) then j :: insert_stable key i rest else i :: l
  end.

Definition stable_sort (key : nat -> R) (l : list nat) : list nat :=
  fold_right (insert_stable key) [] l.


(** [beta[k] > 0] for [k >= 1]. *)
Definition well_formed (beta : list R) : Prop :=
  forall k, (1 <= k < length beta)%nat -> 0 < nth k beta 0.

(** The weight the exact backend computes from an item of [eigenvects]. *)
Definition item_weight (beta0 : R) (it : eigen_item) : R :=
  let v := hd [] (item_basis it) in
  beta0 * vnth v 0 ^ 2 / Rsum (map (fun t => t ^ 2) v).

(** The two assertions of the exact backend's loop. *)
Definition item_simple (it : eigen_item) : bool :=
  ((item_multiplicity it =? 1) && (length (item_basis it) =? 1))%nat.

(** [x], [w] come from [n] pairwise orthogonal eigenvectors [V i] of [J]:
    node [i] is the eigenvalue of [V i], and weight [i] is [beta0] times the
    squared first component of [V i] over its squared norm. *)
Definition spectral_rule (n : nat) (J : nat -> nat -> R) (beta0 : R)
  (x w : list R) : Prop :=
  length x = n /\ length w = n /\
  exists V : nat -> nat -> R,
    (forall i, (i < n)%nat -> eigenpair n J (vnth x i) (V i)) /\
    (forall i j, (i < n)%nat -> (j < n)%nat -> i <> j -> dot n (V i) (V j) = 0) /\
    (forall i, (i < n)%nat ->
       vnth w i = beta0 * V i 0%nat ^ 2 / dot n (V i) (V i)).

(** The guards of the exact backend that precede the call of [eigenvects]:
    [alpha[0]] exists and is a sympy Rational, and [alpha] and [beta] have
    one length. *)
Definition sympy_guards (alpha beta : pyseq) : bool :=
  match seq_items alpha with
  | [] => false
  | (t, _) :: _ =>
      is_Rational t && (length (values alpha) =? length (values beta))%nat
  end.

(** The libraries with another [eigenvects]. *)
Definition with_eigenvects (L : libraries)
  (ev : matrix -> result (list eigen_item)) : libraries := {|
  sympy_sqrt := sympy_sqrt L;
  sympy_eigenvects := ev;
  sympy_decides := sympy_decides L;
  sympy_N := sympy_N L;
  sympy_Float := sympy_Float L;
  mp_sqrt := mp_sqrt L;
  mp_convert := mp_convert L;
  mp_power := mp_power L;
  mul_mpf := mul_mpf L;
  tridiag_eigen := tridiag_eigen L;
  numpy_sqrt := numpy_sqrt L;
  scipy_power := scipy_power L;
  scipy_real := scipy_real L;
  mul_float := mul_float L;
  eig_banded := eig_banded L
|}.

(** [beta] with the value of [beta[0]] replaced by [c]. *)
Definition with_beta0 (beta : pyseq) (c : R) : pyseq :=
  match seq_items beta with
  | [] => beta
  | (t, _) :: rest => mkseq (seq_type beta) ((t, c) :: rest)
  end.

(** The symmetric tridiagonal matrix that [tridiag_eigen(mp, d, e, z)]
    reads: diagonal [d], off-diagonal entries [e[0] .. e[n-2]]. *)
Definition tridiag_of (d e : list number) (i j : nat) : number :=
  if (i =? j)%nat then nth i d (Finite 0)
  else if (j =? i + 1)%nat then nth i e (Finite 0)
  else if (i =? j + 1)%nat then nth j e (Finite 0)
  else Finite 0.

(** The symmetric band matrix [a] that [eig_banded(A, lower=False)] reads:
    [A[u + i - j][j] == a[i][j]] for [i <= j], where [u] is the number of
    super-diagonals, [len(A) - 1]. *)
Definition band_upper (A : list (list number)) (i j : nat) : number :=
  let u := (length A - 1)%nat in
  let lo := Nat.min i j in
  let hi := Nat.max i j in
  if (hi - lo <=? u)%nat then nth hi (nth (u + lo - hi) A []) (Finite 0)
  else Finite 0.

(** The shape [tridiag_eigen] leaves [d] and [z] in: as many eigenvalues
    as [d] had entries, and as many entries of [z]. *)
Definition keeps_shape (n : nat) (out : list number * list (list number)) : Prop :=
  length (fst out) = n /\ length (concat (snd out)) = n.

(** The number [y] is the real [t] up to the relative error [u]. *)
Definition approximates (u t : R) (y : number) : Prop :=
  exists d, Rabs d <= u /\ y = Finite (t * (1 + d)).

(** [a <= b] on two finite numbers. *)
Definition number_le (a b : number) : Prop :=
  match a, b with
  | Finite s, Finite t => s <= t
  | _, _ => False
  end.

(** A list of numbers in ascending order, not necessarily strictly. *)
Definition ascending (l : list number) : Prop := StronglySorted number_le l.

Definition keeps_order (f : number -> number) : Prop :=
  forall a b, number_le a b -> number_le (f a) (f b).

(** The sum of the squares of a list of reals. *)
Definition squares (ts : list R) : R := Rsum (map (fun t => t ^ 2) ts).

End Contract.

(* ================================================================== *)
(** * orthopy/c1/gegenbauer.py *)

Module Gegenbauer.

Section Classes.

(** The module [orthopy.c1.jacobi] is not among the sources.  Of each of its
    two classes the model keeps [__init__], as the function from the
    arguments to the instance it initialises, and the methods a subclass
    inherits, as one function of the method's name, its argument and the
    instance to the value returned and the instance afterwards. *)
Variables X Scaling Number Symbolic Instance Value : Type.

Record pyclass (Args : Type) : Type := {
  init : Args -> result Instance;
  method : string -> Value -> Instance -> result (Value * Instance)
}.

Arguments init {Args} p a.
Arguments method {Args} p name arg self.

Variable jacobi_Eval : pyclass (X * Scaling * Number * Number * Symbolic).
Variable jacobi_RecurrenceCoefficients :
  pyclass (Scaling * Number * Number * Symbolic).

(** [class Eval(jacobi.Eval)]: the class body defines [__init__] only. *)
Definition Eval : pyclass (X * Scaling * Number * Symbolic) := {|
  init := fun '(x, scaling, lmbda, symbolic) =>
            init jacobi_Eval (x, scaling, lmbda, lmbda, symbolic);
  method := method jacobi_Eval
|}.

(** [class RecurrenceCoefficients(jacobi.RecurrenceCoefficients)]. *)
Definition RecurrenceCoefficients : pyclass (Scaling * Number * Symbolic) := {|
  init := fun '(scaling, lmbda, symbolic) =>
            init jacobi_RecurrenceCoefficients (scaling, lmbda, lmbda, symbolic);
  method := method jacobi_RecurrenceCoefficients
|}.

(** A sequence of method calls on an instance: the values they return. *)
Fixpoint calls {Args : Type} (c : pyclass Args) (l : list (string * Value))
  (self : Instance) : result (list Value) :=
  match l with
  | [] => Ok []
  | (name, arg) :: rest =>
      '(v, self') <- method c name arg self ;;
      vs <- calls c rest self' ;;
      Ok (v :: vs)
  end.

(** The constructor call followed by a sequence of method calls. *)
Definition construct_and_call {Args : Type} (c : pyclass Args) (args : Args)
  (l : list (string * Value)) : result (list Value) :=
  self <- init c args ;; calls c l self.

End Classes.

End Gegenbauer.

(* ================================================================== *)
(** * orthopy/enr2/main.py *)

Module Enr2.

(** The [symbolic] argument: the string ["auto"] or a flag. *)
Inductive symbolic_arg : Type :=
| Auto
| Flag (b : bool).

(** The constant [pi] of either library. *)
Inductive constant : Type :=
| sympy_pi
| numpy_pi.

(** An application of either library's square root. *)
Inductive expr : Type :=
| sympy_sqrt_of (c : constant)
| numpy_sqrt_of (c : constant).

(** The two classes imported from [e1r2.main]. *)
Inductive rc_class : Type :=
| RCProbabilistNormal
| RCPhysicistNormal.

(** The arguments of [super().__init__(rc, int_1, X, symbolic)], where [rc]
    is the class instantiated with the flag. *)
Record product_args (X : Type) : Type := {
  rc : rc_class * bool;
  int_1 : expr;
  points : X;
  symbolic : bool
}.

Arguments rc {X} p.
Arguments int_1 {X} p.
Arguments points {X} p.
Arguments symbolic {X} p.

(** [{...}[standardization]]: KeyError for a key that is not in the dict. *)
Definition lookup_rc (standardization : string) : result rc_class :=
  if (standardization =? "probabilists")%string then Ok RCProbabilistNormal
  else if (standardization =? "physicists")%string then Ok RCPhysicistNormal
  else Raise KeyError.

Section Init.

Variable X : Type.
(** [numpy.asarray(X).dtype == sympy.Basic] *)
Variable dtype_is_Basic : X -> bool.

(** [Eval.__init__]: the arguments it hands to [ProductEval.__init__]. *)
Definition Eval (x : X) (standardization : string) (symbolic : symbolic_arg)
  : result (product_args X) :=
  let symbolic :=
    match symbolic with
    | Auto => dtype_is_Basic x
    | Flag b => b
    end in
  cls <- lookup_rc standardization ;;
  let rc := (cls, symbolic) in
  let sqrt := if symbolic then sympy_sqrt_of else numpy_sqrt_of in
  let pi := if symbolic then sympy_pi else numpy_pi in
  let int_1 := sqrt pi in
  Ok {| rc := rc; int_1 := int_1; points := x; symbolic := symbolic |}.

(** [EvalWithDegrees.__init__]: the arguments it hands to
    [ProductEvalWithDegrees.__init__]. *)
Definition EvalWithDegrees (x : X) (standardization : string)
  (symbolic : symbolic_arg) : result (product_args X) :=
  let symbolic :=
    match symbolic with
    | Auto => dtype_is_Basic x
    | Flag b => b
    end in
  cls <- lookup_rc standardization ;;
  let rc := (cls, symbolic) in
  let sqrt := if symbolic then sympy_sqrt_of else numpy_sqrt_of in
  let pi := if symbolic then sympy_pi else numpy_pi in
  let int_1 := sqrt pi in
  Ok {| rc := rc; int_1 := int_1; points := x; symbolic := symbolic |}.

End Init.

End Enr2.

(* ================================================================== *)
(** * Concrete inputs

    The coefficients [alpha = [9, 16]], [beta = [25, 144]] have the Jacobi
    matrix [[9, 12], [12, 16]], whose eigenvalues are 0 and 25 with
    eigenvectors [(-4, 3)] and [(3, 4)]; the rule has nodes [0, 25] and
    weights [16, 9]. *)

Module Demo.

Import Schemes.

Definition rationals (l : list R) : pyseq :=
  mkseq PyList (map (fun v => (SympyRational, v)) l).

Definition floats (l : list R) : pyseq :=
  mkseq NdArray (map (fun v => (NumpyFloat, v)) l).

Definition mpfs (l : list R) : pyseq :=
  mkseq PyList (map (fun v => (MpmathFloat, v)) l).

(** Arithmetic on finite numbers without rounding. *)
Definition power (y : number) (k : nat) : number :=
  match y with
  | Finite v => Finite (v ^ k)
  | _ => NaN
  end.

Definition times (b : item) (y : number) : number :=
  match y with
  | Finite v => Finite (snd b * v)
  | _ => NaN
  end.

Definition root (b : item) : number := Finite (sqrt (snd b)).

(** Libraries that answer for this one matrix, where nothing needs
    rounding: [eigenvects] lists the larger eigenvalue first and does not
    normalize; the numeric solvers return the normalized eigenvectors
    [(-4/5, 3/5)] and [(3/5, 4/5)]. *)
Definition lib : libraries := {|
  sympy_sqrt := sqrt;
  sympy_eigenvects := fun _ => Ok [(25, 1%nat, [[3; 4]]); (0, 1%nat, [[-4; 3]])];
  sympy_decides := fun _ _ => true;
  sympy_N := fun v _ => v;
  sympy_Float := fun _ y => y;
  mp_sqrt := fun _ b => Ok (root b);
  mp_convert := fun _ b => Ok (as_number b);
  mp_power := fun _ => power;
  mul_mpf := fun _ b y => Ok (times b y);
  tridiag_eigen := fun _ _ _ _ =>
    Ok ([Finite 0; Finite 25], [[Finite (-4 / 5); Finite (3 / 5)]]);
  numpy_sqrt := fun b => Ok (root b);
  scipy_power := power;
  scipy_real := fun y => y;
  mul_float := times;
  eig_banded := fun _ =>
    Ok ([Finite 0; Finite 25],
        [[Finite (-4 / 5); Finite (3 / 5)]; [Finite (3 / 5); Finite (4 / 5)]])
|}.

(** Libraries for a matrix with the single entry 0. *)
Definition lib1 : libraries := {|
  sympy_sqrt := sqrt;
  sympy_eigenvects := fun _ => Ok [(0, 1%nat, [[1]])];
  sympy_decides := fun _ _ => true;
  sympy_N := fun v _ => v;
  sympy_Float := fun _ y => y;
  mp_sqrt := fun _ b => Ok (root b);
  mp_convert := fun _ b => Ok (as_number b);
  mp_power := fun _ => power;
  mul_mpf := fun _ b y => Ok (times b y);
  tridiag_eigen := fun _ _ _ _ => Ok ([Finite 0], [[Finite 1]]);
  numpy_sqrt := fun b => Ok (root b);
  scipy_power := power;
  scipy_real := fun y => y;
  mul_float := times;
  eig_banded := fun _ => Ok ([Finite 0], [[Finite 1]])
|}.

Definition mp0 : mp_context := mk_mp 15.

(** A provider of recurrence coefficients that answers with the concrete
    input for every family. *)
Definition rc : recurrence_coefficients :=
  let answer := Ok (rationals [9; 16], rationals [25; 144]) in {|
  rc_legendre := fun _ _ => answer;
  rc_jacobi := fun _ _ _ _ => answer;
  rc_chebyshev1 := fun _ => answer;
  rc_chebyshev2 := fun _ => answer;
  rc_laguerre := fun _ => answer;
  rc_laguerre_generalized := fun _ _ => answer;
  rc_hermite := fun _ => answer
|}.

End Demo.

(* ================================================================== *)
(** * Answers of the real libraries

    Three inputs on which the libraries do not compute what exact
    arithmetic would; the libraries below answer there as the real ones
    do. *)

Module Runs.

Import Schemes.

(** The double nearest to [1e-40], and its square root as a double,
    [1e-20]. *)
Definition tiny : R := 1225996432692711 / 2 ^ 183.
Definition sqrt_tiny : R := 6646139978924579 / 2 ^ 119.

(** The square root of a double as a double, and as an [mpf] of 53 bits. *)
Definition root53 (b : item) : number :=
  Finite (if Req_EM_T (snd b) tiny then sqrt_tiny else sqrt (snd b)).

(** numpy and LAPACK on [alpha = [1., 1.]], [beta = [1., 1e-40]]: the
    off-diagonal entry [1e-20] of the matrix is below the rounding unit of
    its diagonal, the solver treats it as zero and answers with the
    eigenvalues [1., 1.] and the unit vectors.  mpmath at 15 decimal
    places, which are 53 bits, on the same coefficients: the test
    [abs(e[m]) <= eps * (abs(d[m]) + abs(d[m + 1]))] of [tridiag_eigen]
    holds at once, so [d = [1, 1]] and [z = [1, 0]] are left as they
    are. *)
Definition deflated : libraries := {|
  sympy_sqrt := sqrt;
  sympy_eigenvects := fun _ => Raise MatrixError;
  sympy_decides := fun _ _ => true;
  sympy_N := fun v _ => v;
  sympy_Float := fun _ y => y;
  mp_sqrt := fun _ b => Ok (root53 b);
  mp_convert := fun _ b => Ok (as_number b);
  mp_power := fun _ => Demo.power;
  mul_mpf := fun _ b y => Ok (Demo.times b y);
  tridiag_eigen := fun _ d _ z => Ok (d, z);
  numpy_sqrt := fun b => Ok (root53 b);
  scipy_power := Demo.power;
  scipy_real := fun y => y;
  mul_float := Demo.times;
  eig_banded := fun _ =>
    Ok ([Finite 1; Finite 1], [[Finite 1; Finite 0]; [Finite 0; Finite 1]])
|}.

Definition is_finite (y : number) : bool :=
  match y with
  | Finite _ => true
  | _ => false
  end.

(** numpy and scipy on [alpha = [9., 16.]] and a [beta] with
    [beta[1] = 144.]: [numpy.sqrt] of a negative double is nan, and
    [eig_banded], which checks its whole argument with
    [asarray_chkfinite], raises ValueError for an array that holds a nan or
    an infinity.  For the other arrays it answers with the eigenvalues and
    eigenvectors of the matrix of these coefficients. *)
Definition checked : libraries := {|
  sympy_sqrt := sqrt;
  sympy_eigenvects := fun _ => Raise MatrixError;
  sympy_decides := fun _ _ => true;
  sympy_N := fun v _ => v;
  sympy_Float := fun _ y => y;
  mp_sqrt := fun _ b => Ok (Demo.root b);
  mp_convert := fun _ b => Ok (as_number b);
  mp_power := fun _ => Demo.power;
  mul_mpf := fun _ b y => Ok (Demo.times b y);
  tridiag_eigen := fun _ _ _ _ => Raise RuntimeError;
  numpy_sqrt := fun b =>
    Ok (if Rlt_dec (snd b) 0 then NaN else Finite (sqrt (snd b)));
  scipy_power := Demo.power;
  scipy_real := fun y => y;
  mul_float := Demo.times;
  eig_banded := fun A =>
    if forallb (forallb is_finite) A
    then Ok ([Finite 0; Finite 25],
             [[Finite (-4 / 5); Finite (3 / 5)]; [Finite (3 / 5); Finite (4 / 5)]])
    else Raise ValueError
|}.




End Runs.

(* ================================================================== *)
(** * Moments, pairs and prefixes *)




(** The first [n] elements of a sequence, [s[:n]]. *)
Definition prefix (n : nat) (s : pyseq) : pyseq :=
  mkseq (seq_type s) (firstn n (seq_items s)).

(** The node and the weight the exact backend computes from an item. *)
Definition item_pair (beta0 : R) (it : Schemes.eigen_item) : R * R :=
  (Contract.item_value it, Contract.item_weight beta0 it).

(* ================================================================== *)
(** * Finite sums *)

Section Sums.

Lemma big_sum_ext (n : nat) (f g : nat -> R) :
  (forall k, (k < n)%nat -> f k = g k) -> big_sum f n = big_sum g n.
Proof.
  induction n as [|n IH]; intros H; simpl; [reflexivity|].
  rewrite IH by (intros; apply H; lia).
  rewrite H by lia. reflexivity.
Qed.

Lemma big_sum_0 (n : nat) (f : nat -> R) :
  (forall k, (k < n)%nat -> f k = 0) -> big_sum f n = 0.
Proof.
  induction n as [|n IH]; intros H; simpl; [reflexivity|].
  rewrite IH by (intros; apply H; lia).
  rewrite H by lia. lra.
Qed.

Lemma big_sum_plus (n : nat) (f g : nat -> R) :
  big_sum (fun k => f k + g k) n = big_sum f n + big_sum g n.
Proof. induction n as [|n IH]; simpl; [lra|]. rewrite IH. lra. Qed.

Lemma big_sum_minus (n : nat) (f g : nat -> R) :
  big_sum (fun k => f k - g k) n = big_sum f n - big_sum g n.
Proof. induction n as [|n IH]; simpl; [lra|]. rewrite IH. lra. Qed.

Lemma big_sum_scal (n : nat) (c : R) (f : nat -> R) :
  big_sum (fun k => c * f k) n = c * big_sum f n.
Proof. induction n as [|n IH]; simpl; [lra|]. rewrite IH. lra. Qed.

Lemma big_sum_const (n : nat) (c : R) : big_sum (fun _ => c) n = INR n * c.
Proof.
  induction n as [|n IH]; [simpl; lra|].
  rewrite S_INR. simpl. rewrite IH. lra.
Qed.

Lemma big_sum_swap (n m : nat) (f : nat -> nat -> R) :
  big_sum (fun i => big_sum (fun j => f i j) m) n =
  big_sum (fun j => big_sum (fun i => f i j) n) m.
Proof.
  induction n as [|n IH]; simpl.
  - symmetry. apply big_sum_0. reflexivity.
  - rewrite IH, <- big_sum_plus. reflexivity.
Qed.

Lemma big_sum_single (n i : nat) (f : nat -> R) :
  (i < n)%nat -> (forall j, (j < n)%nat -> j <> i -> f j = 0) ->
  big_sum f n = f i.
Proof.
  induction n as [|n IH]; intros Hi H; [lia|]. simpl.
  destruct (Nat.eq_dec i n) as [->|Hne].
  - rewrite big_sum_0 by (intros; apply H; lia). lra.
  - rewrite IH by (try lia; intros; apply H; lia).
    rewrite (H n) by lia. lra.
Qed.

Lemma big_sum_nonneg (n : nat) (f : nat -> R) :
  (forall k, (k < n)%nat -> 0 <= f k) -> 0 <= big_sum f n.
Proof.
  induction n as [|n IH]; intros H; simpl; [lra|].
  assert (0 <= big_sum f n) by (apply IH; intros; apply H; lia).
  assert (0 <= f n) by (apply H; lia). lra.
Qed.

Lemma big_sum_zero_terms (n : nat) (f : nat -> R) :
  (forall k, (k < n)%nat -> 0 <= f k) -> big_sum f n = 0 ->
  forall k, (k < n)%nat -> f k = 0.
Proof.
  induction n as [|n IH]; intros Hpos Hsum k Hk; [lia|].
  simpl in Hsum.
  assert (0 <= big_sum f n) by (apply big_sum_nonneg; intros; apply Hpos; lia).
  assert (0 <= f n) by (apply Hpos; lia).
  destruct (Nat.eq_dec k n) as [->|Hne]; [lra|].
  apply IH; try lia; [intros; apply Hpos; lia | lra].
Qed.

Lemma big_sum_pos (n k : nat) (f : nat -> R) :
  (forall j, (j < n)%nat -> 0 <= f j) -> (k < n)%nat -> 0 < f k ->
  0 < big_sum f n.
Proof.
  intros Hpos Hk Hfk.
  assert (H0 : 0 <= big_sum f n) by (apply big_sum_nonneg; assumption).
  destruct (Req_dec (big_sum f n) 0) as [E|E]; [|lra].
  pose proof (big_sum_zero_terms n f Hpos E k Hk). lra.
Qed.

(** Python's [sum] of a list is the sum of its entries by index. *)
Lemma fold_left_Rplus_acc (l : list R) (a : R) :
  fold_left Rplus l a = a + fold_left Rplus l 0.
Proof.
  revert a. induction l as [|h t IH]; intros a; simpl; [lra|].
  rewrite (IH (a + h)), (IH (0 + h)). lra.
Qed.

Lemma Rsum_app (l1 l2 : list R) : Rsum (l1 ++ l2) = Rsum l1 + Rsum l2.
Proof.
  unfold Rsum. rewrite fold_left_app.
  rewrite fold_left_Rplus_acc. reflexivity.
Qed.

Lemma Rsum_big_sum (l : list R) : Rsum l = big_sum (vnth l) (length l).
Proof.
  induction l as [|h t IH] using rev_ind; [reflexivity|].
  rewrite Rsum_app, length_app, Nat.add_comm. simpl.
  rewrite IH. unfold Rsum. simpl.
  unfold vnth at 3. rewrite app_nth2, Nat.sub_diag by lia. simpl.
  f_equal; [|lra].
  apply big_sum_ext. intros k Hk. unfold vnth. rewrite app_nth1 by lia.
  reflexivity.
Qed.

End Sums.

(* ================================================================== *)
(** * Symmetric matrices and orthogonal families *)

Section Symmetric.

Variable n : nat.
Variable M : nat -> nat -> R.
Hypothesis M_sym : forall i j, (i < n)%nat -> (j < n)%nat -> M i j = M j i.

Lemma dot_comm (u v : nat -> R) : dot n u v = dot n v u.
Proof. apply big_sum_ext. intros. lra. Qed.

Lemma dot_mat_vec (u v : nat -> R) :
  dot n (mat_vec n M u) v = dot n u (mat_vec n M v).
Proof.
  unfold dot, mat_vec.
  rewrite (big_sum_ext n (fun k => big_sum (fun j => M k j * u j) n * v k)
             (fun k => big_sum (fun j => M k j * u j * v k) n)).
  2:{ intros k _. rewrite Rmult_comm, <- big_sum_scal.
      apply big_sum_ext. intros. lra. }
  rewrite big_sum_swap. apply big_sum_ext. intros j Hj.
  rewrite <- big_sum_scal. apply big_sum_ext. intros k Hk.
  rewrite (M_sym k j Hk Hj). lra.
Qed.

(** Eigenvectors of a symmetric matrix for distinct eigenvalues are
    orthogonal. *)
Lemma eigen_orthogonal (lam mu : R) (u v : nat -> R) :
  (forall i, (i < n)%nat -> mat_vec n M u i = lam * u i) ->
  (forall i, (i < n)%nat -> mat_vec n M v i = mu * v i) ->
  lam <> mu -> dot n u v = 0.
Proof.
  intros Hu Hv Hne.
  assert (E1 : dot n (mat_vec n M u) v = lam * dot n u v).
  { unfold dot. rewrite <- big_sum_scal. apply big_sum_ext.
    intros k Hk. rewrite Hu by assumption. lra. }
  assert (E2 : dot n u (mat_vec n M v) = mu * dot n u v).
  { unfold dot. rewrite <- big_sum_scal. apply big_sum_ext.
    intros k Hk. rewrite Hv by assumption. lra. }
  rewrite dot_mat_vec in E1.
  assert (E' : (lam - mu) * dot n u v = 0) by lra.
  apply Rmult_integral in E'. destruct E'; [lra | assumption].
Qed.

Lemma mat_vec_comb (a b : R) (u v : nat -> R) (i : nat) :
  mat_vec n M (fun k => a * u k - b * v k) i =
  a * mat_vec n M u i - b * mat_vec n M v i.
Proof.
  unfold mat_vec. rewrite <- !big_sum_scal, <- big_sum_minus.
  apply big_sum_ext. intros. lra.
Qed.

End Symmetric.

Section OrthogonalFamily.

(** [V i] is the [i]-th of [n] pairwise orthogonal non-zero vectors of
    dimension [n]. *)
Variable n : nat.
Variable V : nat -> nat -> R.
Hypothesis V_orth : forall i j, (i < n)%nat -> (j < n)%nat -> i <> j ->
  dot n (V i) (V j) = 0.
Hypothesis V_pos : forall i, (i < n)%nat -> 0 < dot n (V i) (V i).

Let N (i : nat) : R := dot n (V i) (V i).
Let delta (k l : nat) : R := if (k =? l)%nat then 1 else 0.
(** Component [l] of the unit vector [k] minus its projection on the
    family. *)
Let resid (k l : nat) : R := delta k l - big_sum (fun i => V i k / N i * V i l) n.

Lemma resid_orth (k j : nat) :
  (k < n)%nat -> (j < n)%nat -> dot n (resid k) (V j) = 0.
Proof.
  intros Hk Hj. unfold dot, resid.
  rewrite (big_sum_ext n _ (fun l => delta k l * V j l -
             big_sum (fun i => V i k / N i * (V i l * V j l)) n)).
  2:{ intros l _. rewrite Rmult_minus_distr_r. f_equal.
      rewrite Rmult_comm, <- big_sum_scal. apply big_sum_ext. intros. lra. }
  rewrite big_sum_minus.
  rewrite (big_sum_single n k); try assumption.
  2:{ intros l _ Hl. unfold delta.
      destruct (Nat.eqb_spec k l); [congruence | lra]. }
  unfold delta. rewrite Nat.eqb_refl.
  rewrite big_sum_swap.
  rewrite (big_sum_ext n _ (fun i => V i k / N i * dot n (V i) (V j))).
  2:{ intros i _. rewrite big_sum_scal. reflexivity. }
  rewrite (big_sum_single n j); try assumption.
  - fold (N j). pose proof (V_pos j Hj). fold (N j) in H. field. lra.
  - intros i Hi Hne. rewrite V_orth by assumption. lra.
Qed.

Lemma resid_norm (k : nat) :
  (k < n)%nat -> dot n (resid k) (resid k) = resid k k.
Proof.
  intros Hk.
  transitivity (dot n (resid k) (delta k) -
                big_sum (fun i => V i k / N i * dot n (resid k) (V i)) n).
  - unfold dot at 1. unfold resid at 2.
    rewrite (big_sum_ext n _ (fun l => resid k l * delta k l -
               big_sum (fun i => V i k / N i * (resid k l * V i l)) n)).
    2:{ intros l _. rewrite Rmult_minus_distr_l. f_equal.
        rewrite <- big_sum_scal. apply big_sum_ext. intros. lra. }
    rewrite big_sum_minus. f_equal.
    rewrite big_sum_swap. apply big_sum_ext. intros i _.
    rewrite big_sum_scal. reflexivity.
  - rewrite (big_sum_0 n (fun i => V i k / N i * dot n (resid k) (V i))).
    2:{ intros i Hi. rewrite resid_orth by assumption. lra. }
    unfold dot. rewrite (big_sum_single n k); try assumption.
    + unfold delta. rewrite Nat.eqb_refl. lra.
    + intros l _ Hl. unfold delta.
      destruct (Nat.eqb_spec k l); [congruence | lra].
Qed.

Lemma resid_diag_sum : big_sum (fun k => resid k k) n = 0.
Proof.
  unfold resid. rewrite big_sum_minus.
  unfold delta.
  rewrite (big_sum_ext n (fun k => if (k =? k)%nat then 1 else 0) (fun _ => 1))
    by (intros; rewrite Nat.eqb_refl; reflexivity).
  rewrite big_sum_const, big_sum_swap.
  rewrite (big_sum_ext n _ (fun _ => 1)).
  - rewrite big_sum_const. lra.
  - intros i Hi.
    rewrite (big_sum_ext n _ (fun k => / N i * (V i k * V i k)))
      by (intros; unfold Rdiv; lra).
    rewrite big_sum_scal. fold (dot n (V i) (V i)). fold (N i).
    pose proof (V_pos i Hi) as H. fold (N i) in H. field. lra.
Qed.

(** The unit vectors are in the span of the family. *)
Lemma resid_zero (k l : nat) : (k < n)%nat -> (l < n)%nat -> resid k l = 0.
Proof.
  intros Hk Hl.
  assert (Hnn : forall j, (j < n)%nat -> 0 <= resid j j).
  { intros j Hj. rewrite <- resid_norm by assumption.
    apply big_sum_nonneg. intros. nra. }
  pose proof (big_sum_zero_terms n (fun j => resid j j) Hnn resid_diag_sum k Hk)
    as Hkk.
  simpl in Hkk. rewrite <- resid_norm in Hkk by assumption.
  assert (Hsq : resid k l * resid k l = 0).
  { apply (big_sum_zero_terms n (fun j => resid k j * resid k j));
      [intros; nra | exact Hkk | exact Hl]. }
  nra.
Qed.

(** Parseval at the unit vectors. *)
Lemma family_complete (k l : nat) :
  (k < n)%nat -> (l < n)%nat ->
  big_sum (fun i => V i k / dot n (V i) (V i) * V i l) n =
  if (k =? l)%nat then 1 else 0.
Proof.
  intros Hk Hl. pose proof (resid_zero k l Hk Hl) as H.
  unfold resid, delta, N in H. lra.
Qed.


End OrthogonalFamily.

(* ================================================================== *)
(** * Tridiagonal matrices with non-zero off-diagonal entries *)

Section Tridiagonal.

Variable n : nat.
Variable T : nat -> nat -> R.
Hypothesis T_band : forall i j, (i < n)%nat -> (j < n)%nat ->
  (i + 1 < j)%nat -> T i j = 0.
Hypothesis T_off : forall i, (i + 1 < n)%nat -> T i (i + 1)%nat <> 0.

(** The recurrence behind an eigenvector: once the first component is zero,
    row [i] of the eigen-equation makes component [i + 1] zero. *)
Lemma first_zero_all_zero (lam : R) (v : nat -> R) :
  (forall i, (i < n)%nat -> mat_vec n T v i = lam * v i) ->
  v 0%nat = 0 -> forall k, (k < n)%nat -> v k = 0.
Proof.
  intros Heq H0 k.
  induction k as [k IH] using lt_wf_ind. intros Hk.
  destruct k as [|k]; [assumption|].
  assert (Hrow : mat_vec n T v k = lam * v k) by (apply Heq; lia).
  rewrite (IH k) in Hrow by lia.
  unfold mat_vec in Hrow.
  rewrite (big_sum_single n (S k)) in Hrow; try lia.
  - replace (S k) with (k + 1)%nat in * by lia.
    assert (T k (k + 1)%nat <> 0) by (apply T_off; lia).
    assert (E : T k (k + 1)%nat * v (k + 1)%nat = 0) by lra.
    apply Rmult_integral in E. tauto.
  - intros j Hj Hne.
    destruct (Nat.lt_ge_cases j (S k)) as [Hlt|Hge].
    + rewrite (IH j) by lia. lra.
    + rewrite T_band by lia. lra.
Qed.

Lemma eigen_first_nonzero (lam : R) (v : nat -> R) :
  eigenpair n T lam v -> v 0%nat <> 0.
Proof.
  intros [Heq [k [Hk Hv]]] H0. apply Hv.
  apply (first_zero_all_zero lam); assumption.
Qed.

Lemma dot_self_pos (v : nat -> R) :
  (exists k, (k < n)%nat /\ v k <> 0) -> 0 < dot n v v.
Proof.
  intros [k [Hk Hv]]. unfold dot.
  apply (big_sum_pos n k); [intros; nra | assumption | nra].
Qed.

(** Every eigenspace is a line: two eigenvectors for one eigenvalue are not
    orthogonal. *)
Lemma eigen_same_not_orthogonal (lam : R) (u v : nat -> R) :
  eigenpair n T lam u -> eigenpair n T lam v -> dot n u v <> 0.
Proof.
  intros Hu Hv Horth.
  pose proof (eigen_first_nonzero lam v Hv) as Hv0.
  destruct Hu as [Hueq Hune], Hv as [Hveq Hvne].
  set (w := fun k => v 0%nat * u k - u 0%nat * v k).
  assert (Hw : forall k, (k < n)%nat -> w k = 0).
  { apply (first_zero_all_zero lam).
    - intros i Hi. unfold w. rewrite mat_vec_comb.
      rewrite Hueq, Hveq by assumption. lra.
    - unfold w. lra. }
  assert (E : v 0%nat * dot n u u = u 0%nat * dot n u v).
  { unfold dot. rewrite <- !big_sum_scal. apply big_sum_ext.
    intros k Hk. pose proof (Hw k Hk) as Hwk. unfold w in Hwk.
    assert (Hk' : v 0%nat * u k = u 0%nat * v k) by lra.
    replace (v 0%nat * (u k * u k)) with (v 0%nat * u k * u k) by ring.
    rewrite Hk'. ring. }
  rewrite Horth in E.
  pose proof (dot_self_pos u Hune). nra.
Qed.

End Tridiagonal.

Section JacobiMatrix.

Variable sq : R -> R.
Variables alpha beta : list R.

Lemma jacobi_entry_sym (i j : nat) :
  jacobi_entry sq alpha beta i j = jacobi_entry sq alpha beta j i.
Proof.
  unfold jacobi_entry.
  destruct (Nat.eqb_spec i j); [subst; rewrite Nat.eqb_refl; reflexivity|].
  destruct (Nat.eqb_spec j i); [congruence|].
  destruct (Nat.eqb_spec j (i + 1)), (Nat.eqb_spec i (j + 1));
    try reflexivity; lia.
Qed.

Lemma jacobi_entry_band (i j : nat) :
  (i + 1 < j)%nat -> jacobi_entry sq alpha beta i j = 0.
Proof.
  intros H. unfold jacobi_entry.
  destruct (Nat.eqb_spec i j); [lia|].
  destruct (Nat.eqb_spec j (i + 1)); [lia|].
  destruct (Nat.eqb_spec i (j + 1)); [lia|]. reflexivity.
Qed.

Lemma jacobi_entry_off (i : nat) :
  jacobi_entry sq alpha beta i (i + 1) = sq (nth (i + 1) beta 0).
Proof.
  unfold jacobi_entry.
  destruct (Nat.eqb_spec i (i + 1)); [lia|].
  rewrite Nat.eqb_refl. reflexivity.
Qed.

(** The matrix does not read [beta[0]]. *)
Lemma jacobi_entry_beta0 (b0 b0' : R) (rest : list R) (i j : nat) :
  jacobi_entry sq alpha (b0 :: rest) i j = jacobi_entry sq alpha (b0' :: rest) i j.
Proof.
  unfold jacobi_entry.
  destruct (Nat.eqb_spec i j); [reflexivity|].
  destruct (Nat.eqb_spec j (i + 1)).
  - subst j. replace (i + 1)%nat with (S i) by lia. reflexivity.
  - destruct (Nat.eqb_spec i (j + 1)); [|reflexivity].
    subst i. replace (j + 1)%nat with (S j) by lia. reflexivity.
Qed.

End JacobiMatrix.

(* ================================================================== *)
(** * The matrices the backends build *)

Section Assignment.

Lemma set_nth_length {A : Type} (l : list A) (i : nat) (v : A) :
  length (set_nth l i v) = length l.
Proof.
  revert i. induction l as [|h t IH]; intros [|i]; simpl; auto.
Qed.

Lemma nth_set_nth_eq {A : Type} (l : list A) (i : nat) (v d : A) :
  (i < length l)%nat -> nth i (set_nth l i v) d = v.
Proof.
  revert i. induction l as [|h t IH]; intros [|i] H; simpl in *;
    try lia; [reflexivity | apply IH; lia].
Qed.

Lemma nth_set_nth_neq {A : Type} (l : list A) (i k : nat) (v d : A) :
  k <> i -> nth k (set_nth l i v) d = nth k l d.
Proof.
  revert i k. induction l as [|h t IH]; intros [|i] [|k] H; simpl;
    try reflexivity; try lia. apply IH. lia.
Qed.

Lemma square_zeros (n : nat) : square n (repeat (repeat 0 n) n).
Proof.
  split; [apply repeat_length|].
  intros i Hi. rewrite nth_repeat_lt by assumption. apply repeat_length.
Qed.

Lemma entry_zeros (n i j : nat) : entry (repeat (repeat 0 n) n) i j = 0.
Proof.
  unfold entry.
  destruct (Nat.lt_ge_cases i n) as [Hi|Hi].
  - rewrite nth_repeat_lt by assumption.
    destruct (Nat.lt_ge_cases j n) as [Hj|Hj].
    + apply nth_repeat_lt. assumption.
    + apply nth_overflow. rewrite repeat_length. assumption.
  - rewrite (nth_overflow (repeat (repeat 0 n) n)) by (rewrite repeat_length; lia).
    destruct j; reflexivity.
Qed.

Lemma square_set_entry (n : nat) (A : matrix) (i j : nat) (v : R) :
  square n A -> square n (set_entry A i j v).
Proof.
  intros [Hl Hr]. unfold set_entry. split.
  - rewrite set_nth_length. assumption.
  - intros k Hk. destruct (Nat.eq_dec k i) as [->|Hne].
    + rewrite nth_set_nth_eq by lia. rewrite set_nth_length. auto.
    + rewrite nth_set_nth_neq by assumption. auto.
Qed.

Lemma entry_set_entry (n : nat) (A : matrix) (i j i' j' : nat) (v : R) :
  square n A -> (i < n)%nat -> (j < n)%nat ->
  entry (set_entry A i j v) i' j' =
  if ((i' =? i) && (j' =? j))%nat then v else entry A i' j'.
Proof.
  intros [Hl Hr] Hi Hj. unfold entry, set_entry.
  destruct (Nat.eqb_spec i' i) as [->|Hne]; simpl.
  - rewrite nth_set_nth_eq by lia.
    destruct (Nat.eqb_spec j' j) as [->|Hne'].
    + apply nth_set_nth_eq. rewrite Hr; assumption.
    + apply nth_set_nth_neq. assumption.
  - rewrite nth_set_nth_neq by assumption. reflexivity.
Qed.

(** A loop over [range(m)] keeps what the body keeps. *)
Lemma fold_left_range {A : Type} (P : nat -> A -> Prop) (f : A -> nat -> A)
  (m : nat) (a : A) :
  P 0%nat a ->
  (forall k x, (k < m)%nat -> P k x -> P (S k) (f x k)) ->
  P m (fold_left f (seq 0 m) a).
Proof.
  intros H0 Hstep. induction m as [|m IH]; [exact H0|].
  rewrite seq_S, fold_left_app. simpl. apply Hstep; [lia|].
  apply IH. intros k x Hk. apply Hstep. lia.
Qed.

Lemma foldM_range {A : Type} (P : nat -> A -> Prop) (f : A -> nat -> result A)
  (m : nat) (a r : A) :
  P 0%nat a ->
  (forall k x y, (k < m)%nat -> P k x -> f x k = Ok y -> P (S k) y) ->
  foldM f (seq 0 m) a = Ok r -> P m r.
Proof.
  intros H0 Hstep.
  assert (G : forall l s x, (forall k, In k l -> (k < m)%nat) ->
            l = seq s (length l) -> (s + length l = m)%nat ->
            P s x -> foldM f l x = Ok r -> P m r).
  { induction l as [|k l IH]; intros s x Hin Hl Hm Hx Hf; simpl in *.
    - injection Hf as <-. replace m with s by lia. assumption.
    - injection Hl as -> Hl. destruct (f x s) as [y|e] eqn:E; [|discriminate].
      simpl in Hf. apply (IH (S s) y); auto; try lia.
      apply (Hstep s x); auto. }
  intros Hf. apply (G (seq 0 m) 0%nat a); auto.
  - intros k Hk. apply in_seq in Hk. lia.
  - rewrite length_seq. reflexivity.
  - rewrite length_seq. reflexivity.
Qed.

End Assignment.

Section SympyMatrix.

Import Schemes.

(** [_sympy_tridiag(a, b)] is the matrix tridiag(b, a, b) of its docstring,
    with [b[i+1]] between rows [i] and [i+1]; [b[0]] is not read. *)
Lemma sympy_tridiag_entries (a b : list R) (A : matrix) :
  _sympy_tridiag a b = Ok A ->
  length a = length b /\ square (length a) A /\
  forall i j, (i < length a)%nat -> (j < length a)%nat ->
    entry A i j = jacobi_entry (fun t => t) a b i j.
Proof.
  unfold _sympy_tridiag. set (n := length a).
  destruct (Nat.eqb_spec n (length b)) as [Hlen|Hlen]; simpl; [|discriminate].
  intros H. injection H as <-. split; [assumption|].
  set (P1 := fun (k : nat) (A : matrix) => square n A /\
    forall i j, (i < n)%nat -> (j < n)%nat ->
      entry A i j = if ((i =? j) && (i <? k))%nat then nth i a 0 else 0).
  set (P2 := fun (k : nat) (A : matrix) => square n A /\
    forall i j, (i < n)%nat -> (j < n)%nat ->
      entry A i j =
      if (i =? j)%nat then nth i a 0
      else if ((j =? i + 1) && (i <? k))%nat then nth j b 0
      else if ((i =? j + 1) && (j <? k))%nat then nth i b 0
      else 0).
  assert (H2 : P2 (n - 1)%nat
    (fold_left (fun A i =>
        let A := set_entry A i (i + 1) (nth (i + 1) b 0) in
        set_entry A (i + 1) i (nth (i + 1) b 0)) (seq 0 (n - 1))
      (fold_left (fun A i => set_entry A i i (nth i a 0)) (seq 0 n)
         (repeat (repeat 0 n) n)))).
  { apply fold_left_range.
    - assert (H1 : P1 n (fold_left (fun A i => set_entry A i i (nth i a 0))
                           (seq 0 n) (repeat (repeat 0 n) n))).
      { apply fold_left_range.
        - split; [apply square_zeros|]. intros i j _ _.
          rewrite entry_zeros, andb_false_r. reflexivity.
        - intros k X Hk [Hsq HX]. split; [apply square_set_entry; assumption|].
          intros i j Hi Hj. rewrite (entry_set_entry n) by assumption.
          rewrite HX by assumption.
          destruct (Nat.eqb_spec i k), (Nat.eqb_spec j k), (Nat.eqb_spec i j),
            (Nat.ltb_spec i k), (Nat.ltb_spec i (S k)); simpl;
            subst; try reflexivity; lia. }
      destruct H1 as [Hsq H1]. split; [assumption|].
      intros i j Hi Hj. rewrite H1 by assumption.
      destruct (Nat.eqb_spec i j), (Nat.ltb_spec i n),
        (Nat.eqb_spec j (i + 1)), (Nat.eqb_spec i (j + 1)); simpl;
        try reflexivity; lia.
    - intros k X Hk [Hsq HX]. simpl. split.
      { apply square_set_entry, square_set_entry. assumption. }
      intros i j Hi Hj.
      rewrite (entry_set_entry n); try lia;
        [|apply square_set_entry; assumption].
      rewrite (entry_set_entry n) by (try assumption; lia).
      rewrite HX by assumption.
      destruct (Nat.eqb_spec i (k + 1)), (Nat.eqb_spec j k),
        (Nat.eqb_spec i k), (Nat.eqb_spec j (k + 1)), (Nat.eqb_spec i j),
        (Nat.eqb_spec j (i + 1)), (Nat.eqb_spec i (j + 1)),
        (Nat.ltb_spec i k), (Nat.ltb_spec j k),
        (Nat.ltb_spec i (S k)), (Nat.ltb_spec j (S k)); simpl;
        subst; try reflexivity; lia. }
  destruct H2 as [Hsq H2]. split; [assumption|].
  intros i j Hi Hj. rewrite H2 by assumption. unfold jacobi_entry.
  destruct (Nat.eqb_spec i j), (Nat.eqb_spec j (i + 1)),
    (Nat.eqb_spec i (j + 1)), (Nat.ltb_spec i (n - 1)),
    (Nat.ltb_spec j (n - 1)); simpl; try reflexivity; lia.
Qed.

End SympyMatrix.

Section BackendMatrices.

Import Schemes Contract.

Variable L : libraries.

Lemma nth_map_lt (f : R -> R) (l : list R) (i : nat) :
  (i < length l)%nat -> nth i (map f l) 0 = f (nth i l 0).
Proof.
  intros H. rewrite (nth_indep _ 0 (f 0)) by (rewrite length_map; assumption).
  apply map_nth.
Qed.

Lemma jacobi_entry_map (sq : R -> R) (a b : list R) (i j : nat) :
  (i < length b)%nat -> (j < length b)%nat ->
  jacobi_entry (fun t => t) a (map sq b) i j = jacobi_entry sq a b i j.
Proof.
  intros Hi Hj. unfold jacobi_entry.
  rewrite !nth_map_lt by assumption. reflexivity.
Qed.

(** The exact backend hands [eigenvects] the Jacobi matrix. *)
Lemma sympy_matrix_entries (alpha beta : pyseq) (A : matrix) :
  sympy_matrix L alpha beta = Ok A ->
  let n := length (values alpha) in
  (1 <= n)%nat /\ length (values beta) = n /\ square n A /\
  forall i j, (i < n)%nat -> (j < n)%nat ->
    entry A i j = jacobi_entry (sympy_sqrt L) (values alpha) (values beta) i j.
Proof.
  unfold sympy_matrix.
  destruct (getitem (seq_items alpha) 0) as [a0|] eqn:Ea; simpl; [|discriminate].
  assert (Hn : (1 <= length (values alpha))%nat).
  { unfold values. rewrite length_map. unfold getitem in Ea.
    destruct (seq_items alpha); [discriminate | simpl; lia]. }
  destruct (is_Rational (fst a0)); simpl; [|discriminate].
  intros H. apply sympy_tridiag_entries in H.
  destruct H as [Hlen [Hsq H]]. rewrite length_map in Hlen.
  split; [assumption|]. split; [symmetry; assumption|]. split; [assumption|].
  intros i j Hi Hj. rewrite H by assumption.
  apply jacobi_entry_map; rewrite <- Hlen; assumption.
Qed.

(** The guards decide whether the exact backend reaches [eigenvects]. *)
Lemma sympy_matrix_ok (alpha beta : pyseq) :
  is_ok (sympy_matrix L alpha beta) = sympy_guards alpha beta.
Proof.
  unfold sympy_matrix, sympy_guards, getitem, _sympy_tridiag.
  rewrite length_map.
  destruct (seq_items alpha) as [|[t v] rest]; simpl; [reflexivity|].
  destruct (is_Rational t); simpl; [|reflexivity].
  destruct (length (values alpha) =? length (values beta))%nat; reflexivity.
Qed.

(** A loop over a range returns when each of its steps does. *)
Lemma foldM_range_ok {A : Type} (P : nat -> A -> Prop)
  (f : A -> nat -> result A) (m : nat) (a : A) :
  P 0%nat a ->
  (forall k x, (k < m)%nat -> P k x -> exists y, f x k = Ok y /\ P (S k) y) ->
  exists r, foldM f (seq 0 m) a = Ok r /\ P m r.
Proof.
  intros H0 Hstep.
  assert (G : forall l s x, (forall k, In k l -> (k < m)%nat) ->
            l = seq s (length l) -> (s + length l = m)%nat ->
            P s x -> exists r, foldM f l x = Ok r /\ P m r).
  { induction l as [|k l IH]; intros s x Hin Hl Hm Hx; simpl in *.
    - exists x. split; [reflexivity|]. replace m with s by lia. assumption.
    - injection Hl as -> Hl.
      destruct (Hstep s x) as [y [E Hy]]; [apply Hin; left; reflexivity | assumption|].
      rewrite E. simpl. apply (IH (S s) y); auto; lia. }
  apply (G (seq 0 m) 0%nat a); auto.
  - intros k Hk. apply in_seq in Hk. lia.
  - rewrite length_seq. reflexivity.
  - rewrite length_seq. reflexivity.
Qed.

(** The vector [b] of the arbitrary-precision backend: [b[i]] is what
    [mp.sqrt] made of [beta[i+1]], and its last entry stays zero. *)
Lemma mpmath_offdiag_entries (mp : mp_context) (n : nat) (beta : list item)
  (b : list number) :
  mpmath_offdiag L mp n beta = Ok b ->
  length b = n /\
  ((n - 1 = 0)%nat \/ (n - 1 < length beta)%nat) /\
  forall i, (i < n)%nat ->
    if (i <? n - 1)%nat
    then (bt <- getitem beta (i + 1) ;; mp_sqrt L mp bt) = Ok (nth i b (Finite 0))
    else nth i b (Finite 0) = Finite 0.
Proof.
  unfold mpmath_offdiag.
  set (P := fun (k : nat) (b : list number) =>
    length b = n /\ ((k = 0)%nat \/ (k < length beta)%nat) /\
    forall i, (i < n)%nat ->
      if (i <? k)%nat
      then (bt <- getitem beta (i + 1) ;; mp_sqrt L mp bt) = Ok (nth i b (Finite 0))
      else nth i b (Finite 0) = Finite 0).
  intros H. apply (foldM_range P) in H; [exact H| |].
  - split; [apply repeat_length|]. split; [left; reflexivity|].
    intros i Hi. simpl. apply nth_repeat_lt. assumption.
  - intros k x y Hk [Hlen [_ Hx]]. unfold getitem.
    destruct (nth_error beta (k + 1)) as [bt|] eqn:E; simpl; [|discriminate].
    destruct (mp_sqrt L mp bt) as [s|e] eqn:Es; simpl; [|discriminate].
    intros Hy. injection Hy as <-.
    assert (Hkb : (k + 1 < length beta)%nat)
      by (apply nth_error_Some; congruence).
    split; [rewrite set_nth_length; assumption|]. split; [right; lia|].
    intros i Hi.
    destruct (Nat.eq_dec i k) as [->|Hne].
    + rewrite nth_set_nth_eq by lia.
      destruct (Nat.ltb_spec k (S k)); [|lia].
      unfold getitem. rewrite E. simpl. exact Es.
    + rewrite nth_set_nth_neq by assumption.
      specialize (Hx i Hi).
      destruct (Nat.ltb_spec i k), (Nat.ltb_spec i (S k)); try assumption; lia.
Qed.

(** The loop returns when [beta] is long enough and [mp.sqrt] accepts its
    elements past the first. *)
Lemma mpmath_offdiag_ok (mp : mp_context) (n : nat) (beta : list item) :
  (n <= length beta)%nat ->
  (forall k bt, (1 <= k < n)%nat -> nth_error beta k = Some bt ->
     is_ok (mp_sqrt L mp bt) = true) ->
  exists b, mpmath_offdiag L mp n beta = Ok b.
Proof.
  intros Hlen Hs. unfold mpmath_offdiag.
  destruct (foldM_range_ok (fun _ _ => True)
              (fun b i => bt <- getitem beta (i + 1) ;;
                          s <- mp_sqrt L mp bt ;; Ok (set_nth b i s))
              (n - 1) (repeat (Finite 0) n) I) as [r [Hr _]].
  - intros k x Hk _. unfold getitem.
    destruct (nth_error beta (k + 1)) as [bt|] eqn:E.
    + simpl. specialize (Hs (k + 1)%nat bt).
      destruct (mp_sqrt L mp bt) as [s|e]; simpl.
      * eexists. split; [reflexivity | exact I].
      * assert (false = true) by (apply Hs; [lia | exact E]). discriminate.
    + apply nth_error_None in E. lia.
  - exists r. exact Hr.
Qed.

Lemma mpmath_z_unit (n : nat) (z : list (list number)) :
  mpmath_z n = Ok z ->
  (1 <= n)%nat /\
  z = [Finite 1 :: repeat (Finite 0) (n - 1)].
Proof.
  destruct n as [|n]; simpl; [discriminate|].
  intros H. injection H as <-. split; [lia|].
  rewrite Nat.sub_0_r. reflexivity.
Qed.

Lemma mapM_length {A B : Type} (f : A -> result B) (l : list A) (r : list B) :
  mapM f l = Ok r ->
  length r = length l /\
  forall i a, nth_error l i = Some a ->
    exists b, f a = Ok b /\ nth_error r i = Some b.
Proof.
  revert r. induction l as [|a l IH]; intros r; simpl.
  - intros H. injection H as <-. split; [reflexivity|].
    intros [|i] a' E; discriminate.
  - destruct (f a) as [b|e] eqn:Ea; simpl; [|discriminate].
    destruct (mapM f l) as [bs|e]; simpl; [|discriminate].
    intros H. injection H as <-. destruct (IH bs eq_refl) as [Hl Hn].
    split; [simpl; congruence|].
    intros [|i] a' E; simpl in *.
    + injection E as <-. exists b. auto.
    + apply Hn. assumption.
Qed.

Lemma mapM_ok_iff {A B : Type} (f : A -> result B) (l : list A) :
  is_ok (mapM f l) = true <-> Forall (fun a => is_ok (f a) = true) l.
Proof.
  induction l as [|a l IH]; simpl.
  - split; auto.
  - destruct (f a) as [b|e] eqn:Ea; simpl.
    + destruct (mapM f l) as [bs|e]; simpl in *.
      * split; [|reflexivity]. intros _. constructor; [rewrite Ea; reflexivity|].
        apply IH. reflexivity.
      * split; [discriminate|]. intros H. inversion H; subst. apply IH. assumption.
    + split; [discriminate|]. intros H. inversion H as [|? ? Hh _]; subst.
      rewrite Ea in Hh. discriminate.
Qed.

(** The array the floating backend stacks: [numpy.sqrt(beta)] on top of
    [alpha]. *)
Lemma numpy_band_inv (alpha beta : pyseq) (A : list (list number)) :
  numpy_band L alpha beta = Ok A ->
  is_ndarray alpha = true /\ is_ndarray beta = true /\
  length (values beta) = length (values alpha) /\
  exists r, mapM (numpy_sqrt L) (seq_items beta) = Ok r /\
    length r = length (values alpha) /\
    A = [r; map as_number (seq_items alpha)].
Proof.
  unfold numpy_band.
  destruct (is_ndarray alpha); simpl; [|discriminate].
  destruct (is_ndarray beta); simpl; [|discriminate].
  destruct (mapM (numpy_sqrt L) (seq_items beta)) as [r|e] eqn:Er; simpl;
    [|discriminate].
  destruct (Nat.eqb_spec (length r) (length (values alpha))) as [Hlen|];
    simpl; [|discriminate].
  intros H. injection H as <-.
  split; [reflexivity|]. split; [reflexivity|].
  apply mapM_length in Er. destruct Er as [Hr _].
  split.
  { transitivity (length r); [|exact Hlen].
    unfold values. rewrite length_map. symmetry. exact Hr. }
  exists r. auto.
Qed.

(** [eig_banded] reads the Jacobi matrix off the band of the array: [alpha]
    on the diagonal, [numpy.sqrt(beta[k])], [k >= 1], beside it; the entry
    [numpy.sqrt(beta[0])] of the array lies outside the band. *)
Lemma numpy_band_entries (alpha beta : pyseq) (r : list number) :
  length r = length (values alpha) ->
  let A := [r; map as_number (seq_items alpha)] in
  forall i j, (i < length (values alpha))%nat -> (j < length (values alpha))%nat ->
    band_upper A i j =
    if (i =? j)%nat then Finite (nth i (values alpha) 0)
    else if (j =? i + 1)%nat then nth j r (Finite 0)
    else if (i =? j + 1)%nat then nth i r (Finite 0)
    else Finite 0.
Proof.
  intros Hlen A i j Hi Hj. unfold band_upper, A. simpl length.
  replace (2 - 1)%nat with 1%nat by lia.
  assert (Hrow : forall k, (k < length (values alpha))%nat ->
            nth k (map as_number (seq_items alpha)) (Finite 0) =
            Finite (nth k (values alpha) 0)).
  { intros k Hk. unfold values in *. rewrite length_map in Hk.
    rewrite (nth_indep _ (Finite 0) (as_number (SympyRational, 0)))
      by (rewrite length_map; assumption).
    rewrite map_nth. unfold as_number. f_equal.
    rewrite (nth_indep _ 0 (snd (SympyRational, 0)))
      by (rewrite length_map; assumption).
    rewrite map_nth. reflexivity. }
  destruct (Nat.eqb_spec i j) as [->|Hne].
  - rewrite Nat.min_id, Nat.max_id, Nat.sub_diag.
    replace (1 + j - j)%nat with 1%nat by lia.
    change (nth 1 [r; map as_number (seq_items alpha)] [])
      with (map as_number (seq_items alpha)).
    cbn [Nat.leb]. apply Hrow. assumption.
  - destruct (Nat.eqb_spec j (i + 1)) as [->|Hne1].
    + rewrite Nat.min_l, Nat.max_r by lia.
      destruct (Nat.leb_spec (i + 1 - i) 1); [|lia].
      replace (1 + i - (i + 1))%nat with 0%nat by lia. reflexivity.
    + destruct (Nat.eqb_spec i (j + 1)) as [->|Hne2].
      * rewrite Nat.min_r, Nat.max_l by lia.
        destruct (Nat.leb_spec (j + 1 - j) 1); [|lia].
        replace (1 + j - (j + 1))%nat with 0%nat by lia. reflexivity.
      * destruct (Nat.leb_spec (Nat.max i j - Nat.min i j) 1); [lia|].
        reflexivity.
Qed.

End BackendMatrices.

(* ================================================================== *)
(** * Sorting and the loop of the exact backend *)

Section Sorting.

Import Schemes Contract.

Variable key : nat -> R.

Let le_key (i j : nat) : Prop := key i <= key j.

Lemma insert_stable_perm (i : nat) (l : list nat) :
  Permutation (insert_stable key i l) (i :: l).
Proof.
  induction l as [|j rest IH]; simpl; [apply Permutation_refl|].
  destruct (Rltb (key j) (key i)); [|apply Permutation_refl].
  apply perm_trans with (j :: i :: rest); [|apply perm_swap].
  apply perm_skip. assumption.
Qed.

Lemma stable_sort_perm (l : list nat) : Permutation (stable_sort key l) l.
Proof.
  induction l as [|i l IH]; simpl; [constructor|].
  apply perm_trans with (i :: stable_sort key l); [apply insert_stable_perm|].
  apply perm_skip. assumption.
Qed.

Lemma insert_stable_sorted (i : nat) (l : list nat) :
  StronglySorted le_key l -> StronglySorted le_key (insert_stable key i l).
Proof.
  induction l as [|j rest IH]; intros Hs; simpl.
  - constructor; constructor.
  - inversion Hs as [|? ? Hrest Hall]; subst.
    unfold Rltb. destruct (Rlt_dec (key j) (key i)) as [Hlt|Hge].
    + constructor; [apply IH; assumption|].
      apply (Permutation_Forall (Permutation_sym (insert_stable_perm i rest))).
      constructor; [unfold le_key; lra | assumption].
    + constructor; [assumption|].
      constructor; [unfold le_key; lra|].
      eapply Forall_impl; [|exact Hall].
      intros a Ha. unfold le_key in *. lra.
Qed.

Lemma stable_sort_sorted (l : list nat) :
  StronglySorted le_key (stable_sort key l).
Proof.
  induction l as [|i l IH]; simpl; [constructor|].
  apply insert_stable_sorted. assumption.
Qed.

(** The keys of the sorted indices ascend. *)
Lemma stable_sort_keys_ascend (l : list nat) :
  StronglySorted Rle (map key (stable_sort key l)).
Proof.
  pose proof (stable_sort_sorted l) as H.
  induction H as [|a r Hr IH Hall]; simpl; constructor; [assumption|].
  apply Forall_map. exact Hall.
Qed.

Variable L : libraries.

(** When [sorted] returns, it returns the stable sort. *)
Lemma insert_by_stable (i : nat) (l r : list nat) :
  insert_by (sympy_lt L) key i l = Ok r -> r = insert_stable key i l.
Proof.
  revert r. induction l as [|j rest IH]; intros r; simpl.
  - intros H. injection H as <-. reflexivity.
  - unfold sympy_lt at 1.
    destruct (sympy_decides L (key j) (key i)); simpl; [|discriminate].
    destruct (Rltb (key j) (key i)).
    + destruct (insert_by (sympy_lt L) key i rest) as [r'|e]; simpl;
        [|discriminate].
      intros H. injection H as <-. rewrite (IH r' eq_refl). reflexivity.
    + intros H. injection H as <-. reflexivity.
Qed.

Lemma sorted_stable (l r : list nat) :
  sorted (sympy_lt L) key l = Ok r -> r = stable_sort key l.
Proof.
  revert r. induction l as [|i rest IH]; intros r; simpl.
  - intros H. injection H as <-. reflexivity.
  - destruct (sorted (sympy_lt L) key rest) as [s|e]; simpl; [|discriminate].
    intros H. apply insert_by_stable in H. rewrite (IH s eq_refl) in H.
    exact H.
Qed.



(** It returns when sympy can order every two keys. *)
Lemma insert_by_decided (i : nat) (l : list nat) :
  (forall j, In j l -> sympy_decides L (key j) (key i) = true) ->
  insert_by (sympy_lt L) key i l = Ok (insert_stable key i l).
Proof.
  induction l as [|j rest IH]; intros H; simpl; [reflexivity|].
  unfold sympy_lt at 1. rewrite (H j) by (left; reflexivity). simpl.
  destruct (Rltb (key j) (key i)); [|reflexivity].
  rewrite IH by (intros k Hk; apply H; right; assumption). reflexivity.
Qed.

Lemma sorted_decided (l : list nat) :
  (forall i j, In i l -> In j l -> sympy_decides L (key i) (key j) = true) ->
  sorted (sympy_lt L) key l = Ok (stable_sort key l).
Proof.
  induction l as [|i rest IH]; intros H; simpl; [reflexivity|].
  rewrite IH by (intros a b Ha Hb; apply H; right; assumption). simpl.
  apply insert_by_decided. intros j Hj. apply H; [right | left; reflexivity].
  apply (Permutation_in _ (stable_sort_perm rest)). assumption.
Qed.


End Sorting.

Section SympyLoop.

Import Schemes Contract.

Variable beta : list R.

Lemma sympy_item_inv (acc : list R * list R) (it : eigen_item)
  (x w : list R) :
  sympy_item beta acc it = Ok (x, w) ->
  item_simple it = true /\
  x = fst acc ++ [item_value it] /\
  w = snd acc ++ [item_weight (nth 0 beta 0) it].
Proof.
  destruct it as [[val m] vec], acc as [x0 w0].
  unfold sympy_item, item_simple, item_value, item_weight, item_basis,
    item_multiplicity. simpl fst. simpl snd.
  destruct (Nat.eqb_spec m 1); simpl; [|discriminate].
  destruct (Nat.eqb_spec (length vec) 1); simpl; [|discriminate].
  destruct vec as [|vec0 rest]; [discriminate|]. simpl.
  destruct beta as [|b0 brest]; [discriminate|]. simpl.
  destruct vec0 as [|v0 vrest]; [discriminate|]. simpl.
  intros H. injection H as <- <-. auto.
Qed.

Lemma sympy_loop_inv (items : list eigen_item) (x0 w0 x w : list R) :
  foldM (sympy_item beta) items (x0, w0) = Ok (x, w) ->
  Forall (fun it => item_simple it = true) items /\
  x = x0 ++ map item_value items /\
  w = w0 ++ map (item_weight (nth 0 beta 0)) items.
Proof.
  revert x0 w0. induction items as [|it items IH]; intros x0 w0; simpl.
  - intros H. injection H as <- <-. rewrite !app_nil_r. auto.
  - destruct (sympy_item beta (x0, w0) it) as [[x1 w1]|e] eqn:E; [|discriminate].
    simpl. intros H. apply sympy_item_inv in E. destruct E as [Hs [-> ->]].
    apply IH in H. destruct H as [Hall [-> ->]]. simpl.
    rewrite <- !app_assoc. simpl. auto.
Qed.


End SympyLoop.

(* ================================================================== *)
(** * From a backend's result to a spectral rule *)

Section SpectralRule.

Import Schemes Contract.

Lemma nth_map_default {A : Type} (f : A -> R) (l : list A) (p : nat) (d : A) :
  (p < length l)%nat -> nth p (map f l) 0 = f (nth p l d).
Proof.
  intros H. rewrite (nth_indep _ 0 (f d)) by (rewrite length_map; assumption).
  apply map_nth.
Qed.

Lemma mat_vec_ext (n : nat) (M M' : nat -> nat -> R) (v : nat -> R) (i : nat) :
  (forall j, (j < n)%nat -> M i j = M' i j) ->
  mat_vec n M v i = mat_vec n M' v i.
Proof.
  intros H. apply big_sum_ext. intros j Hj. rewrite H by assumption. reflexivity.
Qed.

Lemma eigenpair_ext (n : nat) (M M' : nat -> nat -> R) (lam : R) (v : nat -> R) :
  (forall i j, (i < n)%nat -> (j < n)%nat -> M i j = M' i j) ->
  eigenpair n M lam v -> eigenpair n M' lam v.
Proof.
  intros H [Heq Hne]. split; [|assumption].
  intros i Hi. rewrite <- Heq by assumption. symmetry.
  apply mat_vec_ext. intros j Hj. apply H; assumption.
Qed.

Lemma dot_nonzero_component (n : nat) (v : nat -> R) :
  dot n v v <> 0 -> exists k, (k < n)%nat /\ v k <> 0.
Proof.
  unfold dot. induction n as [|n IH]; simpl; intros H; [lra|].
  destruct (Req_dec (v n) 0) as [E|E].
  - rewrite E in H. destruct IH as [k [Hk Hv]]; [lra|].
    exists k. split; [lia | assumption].
  - exists n. split; [lia | assumption].
Qed.

Lemma norm2_dot (v : list R) :
  Rsum (map (fun t => t ^ 2) v) = dot (length v) (vnth v) (vnth v).
Proof.
  rewrite Rsum_big_sum, length_map. apply big_sum_ext. intros k Hk.
  unfold vnth. rewrite (nth_map_default _ _ _ 0) by assumption. ring.
Qed.

(** Reading the nodes and weights through a permutation of the indices, as
    the exact backend does after sorting, keeps a spectral rule. *)
Lemma spectral_rule_reindex (n : nat) (J : nat -> nat -> R) (beta0 : R)
  (xs ws : list R) (order : list nat) :
  spectral_rule n J beta0 xs ws ->
  Permutation order (seq 0 n) ->
  spectral_rule n J beta0 (map (fun i => nth i xs 0) order)
    (map (fun i => nth i ws 0) order).
Proof.
  intros [Hx [Hw [V [Heig [Horth Hwt]]]]] Hperm.
  assert (Hlen : length order = n)
    by (rewrite (Permutation_length Hperm); apply length_seq).
  assert (Hin : forall p, (p < n)%nat -> (nth p order 0%nat < n)%nat).
  { intros p Hp.
    assert (In (nth p order 0%nat) (seq 0 n)) as Hi
      by (apply (Permutation_in _ Hperm), nth_In; lia).
    apply in_seq in Hi. lia. }
  assert (Hnd : NoDup order)
    by (apply (Permutation_NoDup (Permutation_sym Hperm)), seq_NoDup).
  split; [rewrite length_map; assumption|].
  split; [rewrite length_map; assumption|].
  exists (fun p => V (nth p order 0%nat)).
  split; [|split].
  - intros p Hp. unfold vnth.
    rewrite (nth_map_default _ _ _ 0%nat) by lia.
    apply Heig, Hin, Hp.
  - intros p q Hp Hq Hne. apply Horth; try (apply Hin; assumption).
    intros E. apply Hne.
    apply (proj1 (NoDup_nth order 0%nat) Hnd); lia.
  - intros p Hp. unfold vnth.
    rewrite (nth_map_default _ _ _ 0%nat) by lia.
    apply Hwt, Hin, Hp.
Qed.

Lemma simple_items_count (items : list eigen_item) :
  Forall (fun it => item_simple it = true) items ->
  fold_right (fun it s => (item_multiplicity it + s)%nat) 0%nat items =
  length items.
Proof.
  induction 1 as [|it items Hs _ IH]; simpl; [reflexivity|].
  rewrite IH. unfold item_simple in Hs. apply andb_prop in Hs.
  destruct Hs as [Hm _]. apply Nat.eqb_eq in Hm. lia.
Qed.

(** The items of [eigenvects], once they have passed the assertions, give a
    spectral rule of the symmetric matrix they were computed from. *)
Lemma items_spectral_rule (n : nat) (A : matrix) (J : nat -> nat -> R)
  (beta0 : R) (items : list eigen_item) :
  (forall i j, (i < n)%nat -> (j < n)%nat -> J i j = J j i) ->
  (forall i j, (i < n)%nat -> (j < n)%nat -> entry A i j = J i j) ->
  eigenvects_spec n A items ->
  Forall (fun it => item_simple it = true) items ->
  spectral_rule n J beta0 (map item_value items) (map (item_weight beta0) items).
Proof.
  intros Jsym HA [Hnd [Hcount Hitems]] Hsimple.
  rewrite simple_items_count in Hcount by assumption.
  set (d := (0, 0%nat, @nil vector) : eigen_item).
  set (vec := fun i => hd [] (item_basis (nth i items d))).
  assert (Hvec : forall i, (i < n)%nat ->
            length (vec i) = n /\
            eigenpair n J (item_value (nth i items d)) (vnth (vec i))).
  { intros i Hi.
    assert (Hin : In (nth i items d) items) by (apply nth_In; lia).
    destruct (Hitems _ Hin) as [_ Hb].
    rewrite Forall_forall in Hsimple. pose proof (Hsimple _ Hin) as Hs.
    unfold item_simple in Hs. apply andb_prop in Hs. destruct Hs as [_ Hl].
    apply Nat.eqb_eq in Hl. unfold vec.
    destruct (item_basis (nth i items d)) as [|v [|? ?]]; try discriminate.
    simpl. destruct (Hb v (or_introl eq_refl)) as [Hlv He].
    split; [assumption|]. apply (eigenpair_ext n (entry A)); assumption. }
  split; [rewrite length_map; assumption|].
  split; [rewrite length_map; assumption|].
  exists (fun i => vnth (vec i)). split; [|split].
  - intros i Hi. unfold vnth at 1.
    rewrite (nth_map_default _ _ _ d) by lia. apply Hvec. assumption.
  - intros i j Hi Hj Hne.
    destruct (Hvec i Hi) as [_ [Hei _]], (Hvec j Hj) as [_ [Hej _]].
    apply (eigen_orthogonal n J Jsym _ _ _ _ Hei Hej).
    intros E. apply Hne.
    apply (proj1 (NoDup_nth (map item_value items) 0) Hnd);
      try (rewrite length_map; lia).
    rewrite !(nth_map_default _ _ _ d) by lia. assumption.
  - intros i Hi. unfold vnth at 1.
    rewrite (nth_map_default _ _ _ d) by lia.
    unfold item_weight. fold (vec i).
    rewrite norm2_dot. destruct (Hvec i Hi) as [-> _]. reflexivity.
Qed.

End SpectralRule.

Section BackendRules.

Import Schemes Contract.

Variable L : libraries.

Lemma sympy_collect_inv (beta : list R) (items : list eigen_item) (r : rule) :
  sympy_collect L beta items = Ok r ->
  exists xs ws,
    foldM (sympy_item beta) items ([], []) = Ok (xs, ws) /\
    let order := stable_sort (fun i => nth i xs 0) (seq 0 (length xs)) in
    r = Lists (map (fun i => nth i xs 0) order) (map (fun i => nth i ws 0) order).
Proof.
  unfold sympy_collect.
  destruct (foldM (sympy_item beta) items ([], [])) as [[xs ws]|e] eqn:E;
    simpl; [|discriminate].
  destruct (sorted (sympy_lt L) _ _) as [order|e] eqn:Es; simpl; [|discriminate].
  intros H. injection H as <-. apply sorted_stable in Es. subst order.
  exists xs, ws. split; reflexivity.
Qed.

Lemma sympy_backend_inv (alpha beta : pyseq) (r : rule) :
  _gauss_from_coefficients_sympy L alpha beta = Ok r ->
  exists A items xs ws,
    sympy_matrix L alpha beta = Ok A /\
    sympy_eigenvects L A = Ok items /\
    foldM (sympy_item (values beta)) items ([], []) = Ok (xs, ws) /\
    let order := stable_sort (fun i => nth i xs 0) (seq 0 (length xs)) in
    r = Lists (map (fun i => nth i xs 0) order) (map (fun i => nth i ws 0) order).
Proof.
  unfold _gauss_from_coefficients_sympy.
  destruct (sympy_matrix L alpha beta) as [A|e]; simpl; [|discriminate].
  destruct (sympy_eigenvects L A) as [items|e] eqn:Ev; simpl; [|discriminate].
  intros H. apply sympy_collect_inv in H. destruct H as [xs [ws [Hl Hr]]].
  exists A, items, xs, ws.
  split; [reflexivity|]. split; [exact Ev|]. split; [exact Hl | exact Hr].
Qed.

(** The exact backend returns nothing but two lists. *)
Lemma sympy_returns_lists (alpha beta : pyseq) (r : rule) :
  _gauss_from_coefficients_sympy L alpha beta = Ok r ->
  exists x w, r = Lists x w.
Proof.
  intros H. apply sympy_backend_inv in H.
  destruct H as [A [items [xs [ws [_ [_ [_ ->]]]]]]]. eauto.
Qed.

Lemma sympy_spectral_rule (alpha beta : pyseq) (x w : list R) :
  eigenvects_contract L alpha beta ->
  _gauss_from_coefficients_sympy L alpha beta = Ok (Lists x w) ->
  spectral_rule (length (values alpha))
    (jacobi_entry (sympy_sqrt L) (values alpha) (values beta))
    (nth 0 (values beta) 0) x w.
Proof.
  intros Hc H. apply sympy_backend_inv in H.
  destruct H as [A [items [xs [ws [HA [Hev [Hloop Hr]]]]]]].
  cbv zeta in Hr. injection Hr as -> ->.
  specialize (Hc A items HA Hev).
  apply sympy_matrix_entries in HA. destruct HA as [Hn [Hlen [Hsq Hent]]].
  apply sympy_loop_inv in Hloop. destruct Hloop as [Hsimple [Hxs Hws]].
  simpl in Hxs, Hws. subst xs ws.
  pose proof (items_spectral_rule _ A _ (nth 0 (values beta) 0) _
                (fun i j _ _ => jacobi_entry_sym _ _ _ i j) Hent Hc Hsimple)
    as Hrule.
  apply spectral_rule_reindex; [assumption|].
  destruct Hrule as [Hx _]. rewrite Hx. apply stable_sort_perm.
Qed.

Lemma sympy_ascending (alpha beta : pyseq) (x w : list R) :
  _gauss_from_coefficients_sympy L alpha beta = Ok (Lists x w) ->
  StronglySorted Rle x.
Proof.
  intros H. apply sympy_backend_inv in H.
  destruct H as [A [items [xs [ws [_ [_ [_ Hr]]]]]]].
  cbv zeta in Hr. injection Hr as -> _.
  apply (stable_sort_keys_ascend (fun i => nth i xs 0)).
Qed.



End BackendRules.


(* ================================================================== *)
(** * Consequences of a spectral rule *)

Section RuleFacts.

Import Contract.

Variable n : nat.
Variable J : nat -> nat -> R.
Hypothesis J_sym : forall i j, (i < n)%nat -> (j < n)%nat -> J i j = J j i.
Variable beta0 : R.
Variables x w : list R.
Hypothesis rule : spectral_rule n J beta0 x w.



(** The rule is aligned: weight [i] is the Golub-Welsch weight of node [i],
    whichever eigenvector of node [i] it is computed from. *)
Section Jacobi.

Hypothesis J_band : forall i j, (i < n)%nat -> (j < n)%nat ->
  (i + 1 < j)%nat -> J i j = 0.
Hypothesis J_off : forall i, (i + 1 < n)%nat -> J i (i + 1)%nat <> 0.

Lemma rule_distinct (i j : nat) :
  (i < n)%nat -> (j < n)%nat -> i <> j -> vnth x i <> vnth x j.
Proof.
  destruct rule as [Hx [Hw [V [Heig [Horth Hwt]]]]].
  intros Hi Hj Hne E.
  apply (eigen_same_not_orthogonal n J J_band J_off (vnth x i) (V i) (V j)).
  - apply Heig. assumption.
  - rewrite E. apply Heig. assumption.
  - apply Horth; assumption.
Qed.

Lemma rule_aligned (i : nat) (v : nat -> R) :
  (i < n)%nat -> eigenpair n J (vnth x i) v ->
  vnth w i = beta0 * v 0%nat ^ 2 / dot n v v.
Proof.
  destruct rule as [Hx [Hw [V [Heig [Horth Hwt]]]]].
  intros Hi Hv. rewrite Hwt by assumption.
  destruct (Heig i Hi) as [HVeq HVne]. destruct Hv as [Hveq Hvne].
  pose proof (dot_self_pos n (V i) HVne) as HVpos.
  pose proof (dot_self_pos n v Hvne) as Hvpos.
  assert (Hprop : forall k, (k < n)%nat -> V i 0%nat * v k = v 0%nat * V i k).
  { intros k Hk.
    assert (E : V i 0%nat * v k - v 0%nat * V i k = 0); [|lra].
    apply (first_zero_all_zero n J J_band J_off (vnth x i)
             (fun k => V i 0%nat * v k - v 0%nat * V i k)); [|lra|assumption].
    intros r Hr. rewrite mat_vec_comb. rewrite Hveq, HVeq by assumption. lra. }
  assert (E : V i 0%nat ^ 2 * dot n v v = v 0%nat ^ 2 * dot n (V i) (V i)).
  { unfold dot. rewrite <- !big_sum_scal. apply big_sum_ext. intros k Hk.
    pose proof (Hprop k Hk) as Hpk.
    replace (V i 0%nat ^ 2 * (v k * v k))
      with ((V i 0%nat * v k) * (V i 0%nat * v k)) by ring.
    rewrite Hpk. ring. }
  unfold Rdiv. rewrite !Rmult_assoc. f_equal.
  apply (Rmult_eq_reg_r (dot n v v * dot n (V i) (V i))); [|nra].
  transitivity (V i 0%nat ^ 2 * dot n v v); [field; lra|].
  rewrite E. field. lra.
Qed.

Lemma rule_weights_positive (i : nat) :
  0 < beta0 -> (i < n)%nat -> 0 < vnth w i.
Proof.
  destruct rule as [Hx [Hw [V [Heig [Horth Hwt]]]]].
  intros Hb Hi. rewrite Hwt by assumption.
  pose proof (eigen_first_nonzero n J J_band J_off _ _ (Heig i Hi)) as H0.
  destruct (Heig i Hi) as [_ Hne].
  pose proof (dot_self_pos n (V i) Hne) as Hpos.
  apply Rdiv_lt_0_compat; [|assumption].
  apply Rmult_lt_0_compat; [assumption|]. nra.
Qed.

End Jacobi.

Lemma rule_weights_sum : (0 < n)%nat -> Rsum w = beta0.
Proof.
  destruct rule as [Hx [Hw [V [Heig [Horth Hwt]]]]].
  intros Hn. rewrite Rsum_big_sum, Hw.
  rewrite (big_sum_ext n _
             (fun i => beta0 * (V i 0%nat / dot n (V i) (V i) * V i 0%nat))).
  - rewrite big_sum_scal.
    rewrite (family_complete n V Horth) by
      (try assumption; intros i Hi; apply dot_self_pos, (Heig i Hi)).
    simpl. lra.
  - intros i Hi. rewrite Hwt by assumption. unfold Rdiv. ring.
Qed.

End RuleFacts.

Section Ascending.

Lemma ascending_distinct_strict (l : list R) :
  StronglySorted Rle l ->
  (forall i j, (i < length l)%nat -> (j < length l)%nat -> i <> j ->
     vnth l i <> vnth l j) ->
  StronglySorted Rlt l.
Proof.
  induction 1 as [|a l Hs IH Hall]; intros Hd; constructor.
  - apply IH. intros i j Hi Hj Hne.
    apply (Hd (S i) (S j)); simpl; lia.
  - rewrite Forall_forall in *. intros b Hb.
    pose proof (Hall b Hb) as Hle.
    destruct (In_nth _ _ 0 Hb) as [k [Hk E]].
    pose proof (Hd 0%nat (S k)) as Hne. unfold vnth in Hne. simpl in Hne.
    rewrite E in Hne. assert (a <> b) by (apply Hne; lia). lra.
Qed.

End Ascending.
(* ================================================================== *)
(** * Weights computed with rounding *)

Section RoundedWeights.

Import Contract.

Lemma Rsum_cons (a : R) (l : list R) : Rsum (a :: l) = a + Rsum l.
Proof.
  change (a :: l) with ([a] ++ l). rewrite Rsum_app.
  unfold Rsum at 1. simpl. ring.
Qed.

Lemma Rabs_bounds (x a : R) : Rabs x <= a -> - a <= x <= a.
Proof. unfold Rabs. destruct (Rcase_abs x); lra. Qed.

Lemma squares_cons (t : R) (ts : list R) : squares (t :: ts) = t ^ 2 + squares ts.
Proof. unfold squares. simpl map. apply Rsum_cons. Qed.

Lemma squares_nonneg (ts : list R) : 0 <= squares ts.
Proof.
  induction ts as [|t ts IH]; [unfold squares, Rsum; simpl; lra|].
  rewrite squares_cons. pose proof (pow2_ge_0 t). lra.
Qed.

Variables u beta0 : R.

Hypothesis Hu : 0 <= u <= 1.
Hypothesis Hb : 0 <= beta0.

(** Weights that are [beta0 * t ^ 2] up to the relative error [u] are not
    negative, and their sum is [beta0] times the sum of the squares up to
    the same relative error. *)
Lemma rounded_weights (ts : list R) (w : list number) :
  Forall2 (fun t y => approximates u (beta0 * t ^ 2) y) ts w ->
  exists ss, w = map Finite ss /\
    (forall s, In s ss -> 0 <= s) /\
    Rabs (Rsum ss - beta0 * squares ts) <= beta0 * u * squares ts.
Proof.
  induction 1 as [|t y ts w [d [Hd ->]] _ [ss [-> [Hpos Hsum]]]].
  - exists []. split; [reflexivity|]. split; [intros s []|].
    unfold squares, Rsum. simpl.
    replace (0 - beta0 * 0) with 0 by ring. rewrite Rabs_R0. lra.
  - exists (beta0 * t ^ 2 * (1 + d) :: ss). split; [reflexivity|].
    pose proof (pow2_ge_0 t) as Ht.
    assert (Hd' : - u <= d <= u) by (apply Rabs_bounds; exact Hd).
    split.
    + intros s [<- | Hs]; [|apply Hpos; exact Hs].
      apply Rmult_le_pos; [apply Rmult_le_pos; assumption | lra].
    + rewrite Rsum_cons, squares_cons.
      replace (beta0 * t ^ 2 * (1 + d) + Rsum ss - beta0 * (t ^ 2 + squares ts))
        with (beta0 * t ^ 2 * d + (Rsum ss - beta0 * squares ts)) by ring.
      eapply Rle_trans; [apply Rabs_triang|].
      assert (H1 : Rabs (beta0 * t ^ 2 * d) <= beta0 * u * t ^ 2).
      { rewrite Rabs_mult, (Rabs_pos_eq (beta0 * t ^ 2))
          by (apply Rmult_le_pos; assumption).
        replace (beta0 * u * t ^ 2) with (beta0 * t ^ 2 * u) by ring.
        apply Rmult_le_compat_l; [apply Rmult_le_pos; assumption | exact Hd]. }
      lra.
Qed.

(** When the squares add up to 1 within [eps], the weights add up to [beta0]
    within the relative error [eps + u * (1 + eps)]. *)
Lemma rounded_sum (eps : R) (ts : list R) (w : list number) :
  Forall2 (fun t y => approximates u (beta0 * t ^ 2) y) ts w ->
  Rabs (squares ts - 1) <= eps ->
  exists ss, w = map Finite ss /\
    (forall s, In s ss -> 0 <= s) /\
    Rabs (Rsum ss - beta0) <= beta0 * (eps + u * (1 + eps)).
Proof.
  intros H Heps. destruct (rounded_weights ts w H) as [ss [-> [Hpos Hsum]]].
  exists ss. split; [reflexivity|]. split; [exact Hpos|].
  apply Rabs_bounds in Heps. apply Rabs_bounds in Hsum. apply Rabs_le.
  pose proof (squares_nonneg ts) as Hs.
  assert (H1 : beta0 * u * squares ts <= beta0 * u * (1 + eps))
    by (apply Rmult_le_compat_l; [apply Rmult_le_pos; lra | lra]).
  assert (H2 : beta0 * (squares ts - 1) <= beta0 * eps)
    by (apply Rmult_le_compat_l; lra).
  assert (H3 : beta0 * (- eps) <= beta0 * (squares ts - 1))
    by (apply Rmult_le_compat_l; lra).
  lra.
Qed.

End RoundedWeights.

Section RoundedLists.

Import Contract.

Lemma Forall2_map_in {A B : Type} (P : A -> B -> Prop) (f : A -> B) (l : list A) :
  (forall a, In a l -> P a (f a)) -> Forall2 P l (map f l).
Proof.
  induction l as [|a l IH]; intros H; simpl; constructor.
  - apply H. left. reflexivity.
  - apply IH. intros b Hb. apply H. right. exact Hb.
Qed.

Lemma Forall2_mapM {A B C : Type} (P : A -> C -> Prop) (g : B -> result C)
  (inj : A -> B) (l : list A) (w : list C) :
  mapM g (map inj l) = Ok w ->
  (forall a y, In a l -> g (inj a) = Ok y -> P a y) ->
  Forall2 P l w.
Proof.
  revert w. induction l as [|a l IH]; intros w Hm H; simpl in Hm.
  - injection Hm as <-. constructor.
  - destruct (g (inj a)) as [y|e] eqn:Ey; simpl in Hm; [|discriminate].
    destruct (mapM g (map inj l)) as [ys|e]; simpl in Hm; [|discriminate].
    injection Hm as <-. constructor.
    + apply H; [left; reflexivity | exact Ey].
    + apply IH; [reflexivity|]. intros b y' Hb. apply H. right. exact Hb.
Qed.

Lemma ascending_map (f : number -> number) (l : list number) :
  keeps_order f -> ascending l -> ascending (map f l).
Proof.
  intros Hf. unfold ascending. induction 1 as [|a l Hl IH Ha]; simpl.
  - constructor.
  - constructor; [exact IH|]. rewrite Forall_forall in *.
    intros y Hy. apply in_map_iff in Hy. destruct Hy as [b [<- Hb]].
    apply Hf, Ha, Hb.
Qed.

End RoundedLists.


(* ================================================================== *)
(** * The entry point [custom] and what each backend returns *)

Section Custom.

Import Schemes Contract.

Variable L : libraries.

Lemma custom_sympy (alpha beta : pyseq) (dp : positive) (mp : mp_context) :
  custom L alpha beta "sympy" dp mp =
  (_gauss_from_coefficients_sympy L alpha beta, mp).
Proof. reflexivity. Qed.

Lemma custom_mpmath (alpha beta : pyseq) (dp : positive) (mp : mp_context) :
  custom L alpha beta "mpmath" dp mp =
  (mpmath_body L (mk_mp dp) alpha beta, mk_mp dp).
Proof. reflexivity. Qed.

Lemma custom_numpy (alpha beta : pyseq) (dp : positive) (mp : mp_context) :
  custom L alpha beta "numpy" dp mp =
  (_gauss_from_coefficients_numpy L alpha beta, mp).
Proof. reflexivity. Qed.

(** With positive [beta[k]], [k >= 1], the Jacobi matrix has non-zero
    off-diagonal entries. *)
Lemma jacobi_off_nonzero (sq : R -> R) (alpha beta : list R) (n : nat) :
  sqrt_positive sq -> well_formed beta ->
  (forall k, (1 <= k < n)%nat -> (k < length beta)%nat) ->
  forall i, (i + 1 < n)%nat -> jacobi_entry sq alpha beta i (i + 1) <> 0.
Proof.
  intros Hsq Hwf Hlen i Hi. rewrite jacobi_entry_off.
  apply Rgt_not_eq, Rlt_gt, Hsq, Hwf.
  split; [lia|]. apply Hlen. lia.
Qed.

(** What the exact backend has computed when it returns. *)
Lemma sympy_rule_facts (alpha beta : pyseq) (x w : list R) :
  eigenvects_contract L alpha beta ->
  _gauss_from_coefficients_sympy L alpha beta = Ok (Lists x w) ->
  let n := length (values alpha) in
  spectral_rule n
    (jacobi_entry (sympy_sqrt L) (values alpha) (values beta))
    (nth 0 (values beta) 0) x w /\
  StronglySorted Rle x /\
  (0 < n)%nat /\
  length (values beta) = n.
Proof.
  intros Hc H. cbv zeta.
  split; [apply sympy_spectral_rule; assumption|].
  split; [apply (sympy_ascending L alpha beta x w H)|].
  apply sympy_backend_inv in H. destruct H as [A [items [_ [_ [HA _]]]]].
  apply sympy_matrix_entries in HA. destruct HA as [Hn [Hlen _]].
  split; [lia | exact Hlen].
Qed.



(** When the arbitrary-precision backend returns, and what. *)
Lemma mpmath_body_iff (mp : mp_context) (alpha beta : pyseq) (r : rule) :
  mpmath_body L mp alpha beta = Ok r <->
  exists b z d d' z' w,
    mpmath_offdiag L mp (length (values alpha)) (seq_items beta) = Ok b /\
    mpmath_z (length (values alpha)) = Ok z /\
    mapM (mp_convert L mp) (seq_items alpha) = Ok d /\
    tridiag_eigen L mp d b z = Ok (d', z') /\
    mapM (fun ww => b0 <- getitem (seq_items beta) 0 ;;
                    mul_mpf L mp b0 (mp_power L mp ww 2)) (concat z') = Ok w /\
    r = Arrays (map (sympy_Float L mp) d') w.
Proof.
  unfold mpmath_body, mpmath_collect. split.
  - destruct (mpmath_offdiag L mp _ _) as [b|e]; simpl; [|discriminate].
    destruct (mpmath_z _) as [z|e]; simpl; [|discriminate].
    destruct (mapM (mp_convert L mp) _) as [d|e]; simpl; [|discriminate].
    destruct (tridiag_eigen L mp d b z) as [[d' z']|e] eqn:Et; simpl;
      [|discriminate].
    destruct (mapM _ (concat z')) as [w|e] eqn:Ew; simpl; [|discriminate].
    intros H. injection H as <-. exists b, z, d, d', z', w.
    repeat split; try reflexivity; assumption.
  - intros [b [z [d [d' [z' [w [-> [-> [-> [Ht [Hw ->]]]]]]]]]]]. simpl.
    rewrite Ht. simpl. rewrite Hw. reflexivity.
Qed.

(** When the floating backend returns, and what. *)
Lemma numpy_iff (alpha beta : pyseq) (r : rule) :
  _gauss_from_coefficients_numpy L alpha beta = Ok r <->
  exists A x V b0 V0,
    numpy_band L alpha beta = Ok A /\
    eig_banded L A = Ok (x, V) /\
    getitem (seq_items beta) 0 = Ok b0 /\
    getitem V 0 = Ok V0 /\
    r = Arrays x
          (map (fun v => mul_float L b0 (scipy_real L (scipy_power L v 2))) V0).
Proof.
  unfold _gauss_from_coefficients_numpy, numpy_collect. split.
  - destruct (numpy_band L alpha beta) as [A|e]; simpl; [|discriminate].
    destruct (eig_banded L A) as [[x V]|e] eqn:Ee; simpl; [|discriminate].
    destruct (getitem (seq_items beta) 0) as [b0|e] eqn:Eb; simpl;
      [|discriminate].
    destruct (getitem V 0) as [V0|e] eqn:EV; simpl; [|discriminate].
    intros H. injection H as <-. exists A, x, V, b0, V0.
    repeat split; try reflexivity; assumption.
  - intros [A [x [V [b0 [V0 [-> [Ee [Eb [EV ->]]]]]]]]]. simpl.
    rewrite Ee. simpl. rewrite Eb. simpl. rewrite EV. reflexivity.
Qed.

End Custom.

(* ================================================================== *)
(** * The quadrature rule returned by [custom] *)

Section QuadratureRule.

Import Schemes Contract.

Variable L : libraries.
Variables alpha beta : pyseq.
Variable decimal_places : positive.
Variable mp : mp_context.

Let n : nat := length (values alpha).
Let J : nat -> nat -> R :=
  jacobi_entry (sympy_sqrt L) (values alpha) (values beta).
Let beta0 : R := nth 0 (values beta) 0.


(** C2, amended.  With [beta[k] > 0] for [k >= 1], the exact backend
    returns one node per coefficient, the nodes are pairwise distinct and
    strictly ascending, and the weights are aligned with them: weight [i]
    is the Golub-Welsch weight of node [i].  A numeric backend returns the
    eigenvalues its solver returns, in the solver's order: they ascend
    when the solver's do, not necessarily strictly.  Weight [i] is computed
    from the [i]-th first component the solver returns. *)
Theorem custom_nodes_strictly_ascending :
  eigenvects_contract L alpha beta ->
  sqrt_positive (sympy_sqrt L) ->
  well_formed (values beta) ->
  (forall r mp', custom L alpha beta "sympy" decimal_places mp = (Ok r, mp') ->
     exists x w, r = Lists x w /\
       length x = n /\ length w = n /\
       StronglySorted Rlt x /\
       NoDup x /\
       forall i v, (i < n)%nat -> eigenpair n J (vnth x i) v ->
         vnth w i = beta0 * v 0%nat ^ 2 / dot n v v) /\
  (forall r mp', custom L alpha beta "mpmath" decimal_places mp = (Ok r, mp') ->
     exists b z d d' z' w,
       tridiag_eigen L (mk_mp decimal_places) d b z = Ok (d', z') /\
       r = Arrays (map (sympy_Float L (mk_mp decimal_places)) d') w /\
       (keeps_order (sympy_Float L (mk_mp decimal_places)) ->
        ascending d' ->
        ascending (map (sympy_Float L (mk_mp decimal_places)) d')) /\
       length w = length (concat z') /\
       forall i ww, nth_error (concat z') i = Some ww ->
         exists y,
           (b0 <- getitem (seq_items beta) 0 ;;
            mul_mpf L (mk_mp decimal_places) b0
              (mp_power L (mk_mp decimal_places) ww 2)) = Ok y /\
           nth_error w i = Some y) /\
  (forall r mp', custom L alpha beta "numpy" decimal_places mp = (Ok r, mp') ->
     exists A x V b0 V0,
       eig_banded L A = Ok (x, V) /\
       getitem (seq_items beta) 0 = Ok b0 /\
       getitem V 0 = Ok V0 /\
       r = Arrays x
             (map (fun v => mul_float L b0 (scipy_real L (scipy_power L v 2)))
                V0) /\
       forall i v, nth_error V0 i = Some v ->
         nth_error
           (map (fun v => mul_float L b0 (scipy_real L (scipy_power L v 2))) V0)
           i = Some (mul_float L b0 (scipy_real L (scipy_power L v 2)))).
Proof.
  intros Hc Hsq Hwf. split; [|split].
  - intros r mp' H. rewrite custom_sympy in H. injection H as H _.
    destruct (sympy_returns_lists L _ _ _ H) as [x [w ->]].
    exists x, w. split; [reflexivity|].
    destruct (sympy_rule_facts L _ _ _ _ Hc H) as [Hrule [Hasc [Hn Hlen]]].
    fold n in Hrule, Hn, Hlen. fold J in Hrule. fold beta0 in Hrule.
    assert (Jband : forall i j, (i < n)%nat -> (j < n)%nat -> (i + 1 < j)%nat ->
              J i j = 0) by (intros; apply jacobi_entry_band; assumption).
    assert (Joff : forall i, (i + 1 < n)%nat -> J i (i + 1)%nat <> 0)
      by (apply jacobi_off_nonzero; try assumption; intros; lia).
    pose proof (rule_distinct n J beta0 x w Hrule Jband Joff) as Hd.
    destruct Hrule as [Hx [Hw Hrest]].
    assert (Hrule : spectral_rule n J beta0 x w) by (split; [|split]; assumption).
    rewrite <- Hx in Hd.
    split; [assumption|]. split; [assumption|].
    split; [apply ascending_distinct_strict; assumption|].
    split.
    { apply (NoDup_nth x 0). intros i j Hi Hj E.
      destruct (Nat.eq_dec i j) as [|Hne]; [assumption|].
      exfalso. apply (Hd i j Hi Hj Hne). exact E. }
    intros i v Hi Hv.
    apply (rule_aligned n J beta0 x w Hrule Jband Joff); assumption.
  - intros r mp' H. rewrite custom_mpmath in H. injection H as H _.
    apply mpmath_body_iff in H.
    destruct H as [b [z [d [d' [z' [w [_ [_ [_ [Ht [Hw ->]]]]]]]]]]].
    exists b, z, d, d', z', w. split; [exact Ht|]. split; [reflexivity|].
    split; [apply ascending_map|].
    apply mapM_length in Hw. destruct Hw as [Hl Hn]. split; [exact Hl|].
    intros i ww E. destruct (Hn i ww E) as [y [Hy Ey]]. exists y. auto.
  - intros r mp' H. rewrite custom_numpy in H. injection H as H _.
    apply numpy_iff in H.
    destruct H as [A [x [V [b0 [V0 [_ [Ee [Eb [EV ->]]]]]]]]].
    exists A, x, V, b0, V0.
    split; [exact Ee|]. split; [exact Eb|]. split; [exact EV|].
    split; [reflexivity|].
    intros i v E. rewrite nth_error_map, E. reflexivity.
Qed.

(** C3, amended.  With [beta[0] > 0] and [beta[k] > 0] for [k >= 1], every
    weight the exact backend returns is strictly positive and the weights
    add up to [beta[0]] exactly.  A numeric backend multiplies [beta[0]] by
    the squares of the first components its solver returns.  When this
    arithmetic has a relative error of at most [u] and the squares add up
    to 1 within [eps], every weight is positive or zero and the weights
    add up to [beta[0]] within the relative error [eps + u * (1 + eps)]. *)
Theorem custom_weights_positive_sum :
  eigenvects_contract L alpha beta ->
  sqrt_positive (sympy_sqrt L) ->
  well_formed (values beta) ->
  0 < beta0 ->
  (forall r mp', custom L alpha beta "sympy" decimal_places mp = (Ok r, mp') ->
     exists x w, r = Lists x w /\
       length w = n /\
       (forall i, (i < n)%nat -> 0 < vnth w i) /\
       Rsum w = beta0) /\
  (forall x w mp',
     custom L alpha beta "numpy" decimal_places mp = (Ok (Arrays x w), mp') ->
     exists A V b0 V0,
       eig_banded L A = Ok (x, V) /\
       getitem V 0 = Ok V0 /\
       getitem (seq_items beta) 0 = Ok b0 /\ snd b0 = beta0 /\
       w = map (fun v => mul_float L b0 (scipy_real L (scipy_power L v 2))) V0 /\
       forall u eps ts,
         0 <= u <= 1 ->
         V0 = map Finite ts ->
         (forall t, In t ts ->
            approximates u (beta0 * t ^ 2)
              (mul_float L b0 (scipy_real L (scipy_power L (Finite t) 2)))) ->
         Rabs (squares ts - 1) <= eps ->
         exists ss, w = map Finite ss /\
           (forall s, In s ss -> 0 <= s) /\
           Rabs (Rsum ss - beta0) <= beta0 * (eps + u * (1 + eps))) /\
  (forall x w mp',
     custom L alpha beta "mpmath" decimal_places mp = (Ok (Arrays x w), mp') ->
     exists d b z d' z' b0,
       mpmath_z n = Ok z /\
       tridiag_eigen L (mk_mp decimal_places) d b z = Ok (d', z') /\
       getitem (seq_items beta) 0 = Ok b0 /\ snd b0 = beta0 /\
       mapM (fun ww => mul_mpf L (mk_mp decimal_places) b0
                         (mp_power L (mk_mp decimal_places) ww 2))
            (concat z') = Ok w /\
       forall u eps ts,
         0 <= u <= 1 ->
         concat z' = map Finite ts ->
         (forall t y, In t ts ->
            mul_mpf L (mk_mp decimal_places) b0
              (mp_power L (mk_mp decimal_places) (Finite t) 2) = Ok y ->
            approximates u (beta0 * t ^ 2) y) ->
         Rabs (squares ts - 1) <= eps ->
         exists ss, w = map Finite ss /\
           (forall s, In s ss -> 0 <= s) /\
           Rabs (Rsum ss - beta0) <= beta0 * (eps + u * (1 + eps))).
Proof.
  intros Hc Hsq Hwf Hb. split; [|split].
  - intros r mp' H. rewrite custom_sympy in H. injection H as H _.
    destruct (sympy_returns_lists L _ _ _ H) as [x [w ->]].
    exists x, w. split; [reflexivity|].
    destruct (sympy_rule_facts L _ _ _ _ Hc H) as [Hrule [_ [Hn Hlen]]].
    fold n in Hrule, Hn, Hlen. fold J in Hrule. fold beta0 in Hrule.
    assert (Jband : forall i j, (i < n)%nat -> (j < n)%nat -> (i + 1 < j)%nat ->
              J i j = 0) by (intros; apply jacobi_entry_band; assumption).
    assert (Joff : forall i, (i + 1 < n)%nat -> J i (i + 1)%nat <> 0)
      by (apply jacobi_off_nonzero; try assumption; intros; lia).
    split; [apply Hrule|]. split.
    + intros i Hi.
      apply (rule_weights_positive n J beta0 x w Hrule Jband Joff); assumption.
    + apply (rule_weights_sum n J beta0 x w Hrule). assumption.
  - intros x w mp' H. rewrite custom_numpy in H. injection H as H _.
    apply numpy_iff in H.
    destruct H as [A [x' [V [b0 [V0 [_ [He [Eb [HV Hr]]]]]]]]].
    injection Hr as -> ->. exists A, V, b0, V0. split; [exact He|].
    split; [exact HV|]. split; [exact Eb|].
    split; [|split; [reflexivity|]].
    + unfold beta0, values, getitem in *.
      destruct (seq_items beta) as [|b rest]; [discriminate|].
      simpl in *. injection Eb as <-. reflexivity.
    + intros u eps ts Hu -> Happ Heps.
      apply (rounded_sum u beta0 Hu (Rlt_le _ _ Hb) eps ts); [|exact Heps].
      rewrite map_map. apply Forall2_map_in. exact Happ.
  - intros x w mp' H. rewrite custom_mpmath in H. injection H as H _.
    apply mpmath_body_iff in H.
    destruct H as [b [z [d [d' [z' [w' [_ [Hz [_ [Ht [Hw Hr]]]]]]]]]]].
    injection Hr as _ ->.
    assert (Hitems : exists b0 rest, seq_items beta = b0 :: rest /\
                                     snd b0 = beta0).
    { unfold beta0, values in *.
      destruct (seq_items beta) as [|b0 rest]; [|exists b0, rest; auto].
      exfalso. clear - Hb. simpl in Hb. lra. }
    destruct Hitems as [b0 [rest [E Eb0]]].
    rewrite E in Hw. cbn [getitem nth_error bind] in Hw.
    exists d, b, z, d', z', b0. unfold getitem. rewrite E.
    split; [exact Hz|]. split; [exact Ht|].
    split; [reflexivity|]. split; [exact Eb0|]. split; [exact Hw|].
    intros u eps ts Hu Hzs Happ Heps.
    apply (rounded_sum u beta0 Hu (Rlt_le _ _ Hb) eps ts); [|exact Heps].
    rewrite Hzs in Hw.
    apply (Forall2_mapM _ _ Finite ts w' Hw). exact Happ.
Qed.

End QuadratureRule.

(* ================================================================== *)
(** * The rule of the concrete input *)

Section DemoFacts.

Import Schemes Contract.

Lemma sqrt_144 : sqrt 144 = 12.
Proof. replace 144 with (12 * 12) by lra. apply sqrt_square. lra. Qed.

Let J : nat -> nat -> R := jacobi_entry sqrt [9; 16] [25; 144].

Lemma demo_eigen_25 : eigenpair 2 J 25 (vnth [3; 4]).
Proof.
  split.
  - intros [|[|i]] Hi; try lia;
      unfold mat_vec, J, jacobi_entry, vnth; simpl; rewrite ?sqrt_144; lra.
  - exists 0%nat. split; [lia|]. unfold vnth. simpl. lra.
Qed.

Lemma demo_eigen_0 : eigenpair 2 J 0 (vnth [-4; 3]).
Proof.
  split.
  - intros [|[|i]] Hi; try lia;
      unfold mat_vec, J, jacobi_entry, vnth; simpl; rewrite ?sqrt_144; lra.
  - exists 0%nat. split; [lia|]. unfold vnth. simpl. lra.
Qed.

Let alpha : pyseq := Demo.rationals [9; 16].
Let beta : pyseq := Demo.rationals [25; 144].

Lemma demo_contract : eigenvects_contract Demo.lib alpha beta.
Proof.
  intros A items HA Hev. cbn in Hev. injection Hev as <-.
  apply sympy_matrix_entries in HA.
  destruct HA as [_ [_ [_ Hent]]]. cbn in Hent.
  assert (HJ : forall i j, (i < 2)%nat -> (j < 2)%nat -> J i j = entry A i j)
    by (intros; symmetry; apply Hent; assumption).
  split; [|split].
  - cbn. repeat constructor; simpl; intuition lra.
  - reflexivity.
  - intros it [<- | [<- | []]]; (split; [cbn; lia|]);
      intros v [<- | []]; (split; [reflexivity|]); cbn [item_value fst].
    + apply (eigenpair_ext 2 J); [exact HJ | exact demo_eigen_25].
    + apply (eigenpair_ext 2 J); [exact HJ | exact demo_eigen_0].
Qed.


Lemma demo_matrix :
  sympy_matrix Demo.lib alpha beta = Ok [[9; sqrt 144]; [sqrt 144; 16]].
Proof. reflexivity. Qed.

Lemma demo_run_sympy :
  custom Demo.lib alpha beta "sympy" 32 Demo.mp0 =
  (Ok (Lists [0; 25] [16; 9]), Demo.mp0).
Proof.
  rewrite custom_sympy. f_equal.
  unfold _gauss_from_coefficients_sympy. rewrite demo_matrix.
  cbn. unfold Rltb. destruct (Rlt_dec 0 25); [|lra]. cbn.
  repeat f_equal; field.
Qed.



Lemma demo_sqrt_positive : sqrt_positive sqrt.
Proof. intros t Ht. apply sqrt_lt_R0. assumption. Qed.

Lemma demo_well_formed : well_formed [25; 144].
Proof.
  intros k [H1 H2]. destruct k as [|[|k]]; simpl in *; try lia. lra.
Qed.

Lemma tiny_pos : 0 < Runs.tiny.
Proof.
  unfold Runs.tiny. apply Rdiv_lt_0_compat; [lra|]. apply pow_lt. lra.
Qed.

Lemma tiny_well_formed : well_formed [1; Runs.tiny].
Proof.
  intros k [H1 H2]. destruct k as [|[|k]]; simpl in *; try lia. apply tiny_pos.
Qed.

(** The floating backend on [alpha = [1., 1.]], [beta = [1., 1e-40]], with
    LAPACK's answer: both nodes are 1, and the second weight is 0. *)
Lemma deflated_run :
  custom Runs.deflated (Demo.floats [1; 1]) (Demo.floats [1; Runs.tiny]) "numpy"
    32 Demo.mp0 =
  (Ok (Arrays [Finite 1; Finite 1] [Finite 1; Finite 0]), Demo.mp0).
Proof.
  rewrite custom_numpy. f_equal.
  unfold _gauss_from_coefficients_numpy, numpy_band. cbn.
  repeat f_equal; lra.
Qed.

(** The arbitrary-precision backend at 15 decimal places on the same
    coefficients, with mpmath's answer: the same nodes and weights. *)
Lemma deflated_run_mpmath :
  custom Runs.deflated (Demo.mpfs [1; 1]) (Demo.mpfs [1; Runs.tiny]) "mpmath"
    15 Demo.mp0 =
  (Ok (Arrays [Finite 1; Finite 1] [Finite 1; Finite 0]), mk_mp 15).
Proof.
  rewrite custom_mpmath. f_equal. unfold mpmath_body. cbn.
  repeat f_equal; lra.
Qed.


Lemma deflated_contract (a b : pyseq) :
  eigenvects_contract Runs.deflated a b.
Proof. intros A items _ H. discriminate. Qed.

End DemoFacts.

Section RuleWitnesses.

Import Schemes Contract.

Let J : nat -> nat -> R := jacobi_entry sqrt [9; 16] [25; 144].


Lemma custom_nodes_strictly_ascending_witness :
  custom Demo.lib (Demo.rationals [9; 16]) (Demo.rationals [25; 144]) "sympy" 32
    Demo.mp0 = (Ok (Lists [0; 25] [16; 9]), Demo.mp0) /\
  exists x w, Lists [0; 25] [16; 9] = Lists x w /\
    length x = 2%nat /\ length w = 2%nat /\
    StronglySorted Rlt x /\ NoDup x /\
    forall i v, (i < 2)%nat -> eigenpair 2 J (vnth x i) v ->
      vnth w i = 25 * v 0%nat ^ 2 / dot 2 v v.
Proof.
  split; [exact demo_run_sympy|].
  exact (proj1 (custom_nodes_strictly_ascending Demo.lib _ _ 32 Demo.mp0
                  demo_contract demo_sqrt_positive demo_well_formed)
           _ _ demo_run_sympy).
Defined.

(** The exact backend on the concrete input, and the floating backend on
    [alpha = [1., 1.]], [beta = [1., 1e-40]] with the rounding unit of
    doubles for [u] and for [eps]. *)
Lemma custom_weights_positive_sum_witness :
  (custom Demo.lib (Demo.rationals [9; 16]) (Demo.rationals [25; 144]) "sympy" 32
     Demo.mp0 = (Ok (Lists [0; 25] [16; 9]), Demo.mp0) /\
   exists x w, Lists [0; 25] [16; 9] = Lists x w /\
     length w = 2%nat /\
     (forall i, (i < 2)%nat -> 0 < vnth w i) /\
     Rsum w = 25) /\
  (custom Runs.deflated (Demo.floats [1; 1]) (Demo.floats [1; Runs.tiny]) "numpy"
     32 Demo.mp0 =
   (Ok (Arrays [Finite 1; Finite 1] [Finite 1; Finite 0]), Demo.mp0) /\
   exists ss, [Finite 1; Finite 0] = map Finite ss /\
     (forall s, In s ss -> 0 <= s) /\
     Rabs (Rsum ss - 1) <= 1 * (/ 2 ^ 52 + / 2 ^ 52 * (1 + / 2 ^ 52))).
Proof.
  split.
  - split; [exact demo_run_sympy|].
    assert (H25 : 0 < nth 0 (values (Demo.rationals [25; 144])) 0)
      by (simpl; lra).
    exact (proj1 (custom_weights_positive_sum Demo.lib _ _ 32 Demo.mp0
                    demo_contract demo_sqrt_positive demo_well_formed H25)
             _ _ demo_run_sympy).
  - split; [exact deflated_run|].
    assert (H1 : 0 < nth 0 (values (Demo.floats [1; Runs.tiny])) 0)
      by (simpl; lra).
    assert (Hsq : sqrt_positive (sympy_sqrt Runs.deflated))
      by (intros t Ht; apply sqrt_lt_R0; exact Ht).
    destruct (proj1 (proj2
                (custom_weights_positive_sum Runs.deflated (Demo.floats [1; 1])
                   (Demo.floats [1; Runs.tiny]) 32 Demo.mp0
                   (deflated_contract _ _) Hsq tiny_well_formed H1))
                _ _ _ deflated_run)
      as [A [V [b0 [V0 [He [HV [Hb0 [_ [_ Hbound]]]]]]]]].
    cbn in He. injection He as <-.
    cbn in HV. injection HV as <-.
    cbn in Hb0. injection Hb0 as <-.
    assert (Hpow : 0 < / 2 ^ 52) by (apply Rinv_0_lt_compat, pow_lt; lra).
    assert (Hle : / 2 ^ 52 <= 1).
    { rewrite <- Rinv_1. apply Rinv_le_contravar; [lra|].
      apply pow_R1_Rle. lra. }
    apply (Hbound (/ 2 ^ 52) (/ 2 ^ 52) [1; 0]).
    + lra.
    + reflexivity.
    + intros t [<- | [<- | []]]; exists 0; (split; [rewrite Rabs_R0; lra|]);
        cbn; f_equal; ring.
    + unfold squares, Rsum. simpl.
      replace (0 + 1 * (1 * 1) + 0 * (0 * 1) - 1) with 0 by ring.
      rewrite Rabs_R0. lra.
Defined.

End RuleWitnesses.

(* ================================================================== *)
(** * Where the numeric backends leave the exact rule *)

Section NumericCounterexamples.

Import Schemes Contract.



(** C2, counterexample.  On the same input, which has [beta[1] > 0], the
    two nodes the floating backend returns are equal, and so are the two
    the arbitrary-precision backend returns at 15 decimal places. *)
Lemma numeric_nodes_repeat :
  well_formed (values (Demo.floats [1; Runs.tiny])) /\
  custom Runs.deflated (Demo.floats [1; 1]) (Demo.floats [1; Runs.tiny]) "numpy"
    32 Demo.mp0 =
  (Ok (Arrays [Finite 1; Finite 1] [Finite 1; Finite 0]), Demo.mp0) /\
  well_formed (values (Demo.mpfs [1; Runs.tiny])) /\
  custom Runs.deflated (Demo.mpfs [1; 1]) (Demo.mpfs [1; Runs.tiny]) "mpmath"
    15 Demo.mp0 =
  (Ok (Arrays [Finite 1; Finite 1] [Finite 1; Finite 0]), mk_mp 15) /\
  ~ NoDup [Finite 1; Finite 1].
Proof.
  split; [exact tiny_well_formed|]. split; [exact deflated_run|].
  split; [exact tiny_well_formed|]. split; [exact deflated_run_mpmath|].
  intros H. inversion H as [|? ? Hin _]; subst. apply Hin. left. reflexivity.
Qed.

End NumericCounterexamples.

(* ================================================================== *)
(** * Weights that are not positive *)

Section ZeroMoment.

Import Schemes Contract.

Lemma lib1_contract (alpha beta : pyseq) :
  values alpha = [0] ->
  eigenvects_contract Demo.lib1 alpha beta.
Proof.
  intros Ha A items HA Hev. cbn in Hev. injection Hev as <-. rewrite Ha.
  apply sympy_matrix_entries in HA. rewrite Ha in HA.
  destruct HA as [_ [_ [_ Hent]]].
  split; [|split].
  - cbn. repeat constructor. intros [].
  - reflexivity.
  - intros it [<- | []]. split; [cbn; lia|].
    intros v [<- | []]. split; [reflexivity|]. split.
    + intros i Hi. cbn in Hi. assert (i = 0%nat) as -> by lia.
      unfold mat_vec. simpl. rewrite Hent by (simpl; lia).
      unfold jacobi_entry, vnth, item_value. simpl. lra.
    + exists 0%nat. split; [simpl; lia|]. unfold vnth. simpl. lra.
Qed.

(** C3, counterexample.  The input [alpha = [0]], [beta = [0]] has
    [beta[k] > 0] for every [k >= 1], the exact backend returns on it, and
    the weight it returns is 0.  On [alpha = [1., 1.]],
    [beta = [1., 1e-40]], where [beta[0] > 0] too, the floating backend
    returns the weights [1., 0.], and so does the arbitrary-precision
    backend at 15 decimal places. *)
Lemma zero_moment_weight_not_positive :
  (eigenvects_contract Demo.lib1 (Demo.rationals [0]) (Demo.rationals [0]) /\
   sqrt_positive (sympy_sqrt Demo.lib1) /\
   well_formed (values (Demo.rationals [0])) /\
   custom Demo.lib1 (Demo.rationals [0]) (Demo.rationals [0]) "sympy" 32 Demo.mp0
     = (Ok (Lists [0] [0]), Demo.mp0) /\
   ~ (forall i, (i < 1)%nat -> 0 < vnth [0] i)) /\
  (well_formed (values (Demo.floats [1; Runs.tiny])) /\
   0 < nth 0 (values (Demo.floats [1; Runs.tiny])) 0 /\
   custom Runs.deflated (Demo.floats [1; 1]) (Demo.floats [1; Runs.tiny]) "numpy"
     32 Demo.mp0 =
   (Ok (Arrays [Finite 1; Finite 1] [Finite 1; Finite 0]), Demo.mp0) /\
   custom Runs.deflated (Demo.mpfs [1; 1]) (Demo.mpfs [1; Runs.tiny]) "mpmath"
     15 Demo.mp0 =
   (Ok (Arrays [Finite 1; Finite 1] [Finite 1; Finite 0]), mk_mp 15)).
Proof.
  split.
  - split; [apply lib1_contract; reflexivity|].
    split; [intros t Ht; apply sqrt_lt_R0; assumption|].
    split; [intros k [H1 H2]; simpl in H2; lia|].
    split.
    + rewrite custom_sympy. f_equal.
      unfold _gauss_from_coefficients_sympy, sympy_matrix. cbn.
      repeat f_equal. field.
    + intros H. specialize (H 0%nat Nat.lt_0_1). unfold vnth in H.
      simpl in H. lra.
  - split; [exact tiny_well_formed|]. split; [simpl; lra|].
    split; [exact deflated_run | exact deflated_run_mpmath].
Qed.

End ZeroMoment.

(* ================================================================== *)
(** * When the exact backend fails *)

Section SimpleSpectrum.

Variable n : nat.
Variable T : nat -> nat -> R.
Hypothesis T_band : forall i j, (i < n)%nat -> (j < n)%nat ->
  (i + 1 < j)%nat -> T i j = 0.
Hypothesis T_off : forall i, (i + 1 < n)%nat -> T i (i + 1)%nat <> 0.


End SimpleSpectrum.

Section ExactBackendFailure.

Import Schemes Contract.

Variable L : libraries.




Variables alpha beta : pyseq.


End ExactBackendFailure.

Section ExactBackendExamples.

Import Schemes Contract.




End ExactBackendExamples.

(* ================================================================== *)
(** * The matrix handed to the eigen-solver *)

Section ZerothMoment.

Import Schemes Contract.

Variable L : libraries.

Lemma fold_left_ext {A B : Type} (f g : A -> B -> A) (l : list B) (a : A) :
  (forall x y, f x y = g x y) -> fold_left f l a = fold_left g l a.
Proof.
  intros H. revert a. induction l as [|b l IH]; intros a; simpl; [reflexivity|].
  rewrite H. apply IH.
Qed.

Lemma foldM_ext {A B : Type} (f g : A -> B -> result A) (l : list B) (a : A) :
  (forall x y, f x y = g x y) -> foldM f l a = foldM g l a.
Proof.
  intros H. revert a. induction l as [|b l IH]; intros a; simpl; [reflexivity|].
  rewrite H. destruct (g a b); simpl; [apply IH | reflexivity].
Qed.

Lemma mapM_ext {A B : Type} (f g : A -> result B) (l : list A) :
  (forall a, f a = g a) -> mapM f l = mapM g l.
Proof.
  intros H. induction l as [|a l IH]; simpl; [reflexivity|].
  rewrite H, IH. reflexivity.
Qed.

Lemma nth_map_scale (c : R) (l : list R) (i : nat) :
  nth i (map (Rmult c) l) 0 = c * nth i l 0.
Proof.
  destruct (Nat.lt_ge_cases i (length l)) as [H|H].
  - apply nth_map_default. assumption.
  - rewrite !nth_overflow by (rewrite ?length_map; assumption). ring.
Qed.

Lemma sympy_tridiag_beta0 (a rest : list R) (b0 b0' : R) :
  _sympy_tridiag a (b0 :: rest) = _sympy_tridiag a (b0' :: rest).
Proof.
  unfold _sympy_tridiag. simpl length.
  destruct (negb (length a =? S (length rest))%nat); [reflexivity|].
  f_equal. apply fold_left_ext. intros A i.
  replace (i + 1)%nat with (S i) by lia. reflexivity.
Qed.

Lemma values_with_beta0 (beta : pyseq) (c b0 : R) (rest : list R) :
  values beta = b0 :: rest -> values (with_beta0 beta c) = c :: rest.
Proof.
  unfold values, with_beta0.
  destruct (seq_items beta) as [|[t v] items]; simpl; [discriminate|].
  intros H. injection H as _ <-. reflexivity.
Qed.

Lemma with_beta0_empty (beta : pyseq) (c : R) :
  values beta = [] -> with_beta0 beta c = beta.
Proof.
  unfold values, with_beta0.
  destruct (seq_items beta); [reflexivity | discriminate].
Qed.

Lemma sympy_matrix_beta0 (alpha beta : pyseq) (c : R) :
  sympy_matrix L alpha (with_beta0 beta c) = sympy_matrix L alpha beta.
Proof.
  unfold sympy_matrix.
  destruct (getitem (seq_items alpha) 0) as [a0|e]; simpl; [|reflexivity].
  destruct (negb (is_Rational (fst a0))); [reflexivity|].
  destruct (values beta) as [|b0 rest] eqn:E.
  - rewrite (with_beta0_empty beta c E), E. reflexivity.
  - rewrite (values_with_beta0 beta c b0 rest E). simpl.
    apply sympy_tridiag_beta0.
Qed.

Lemma sympy_loop_scale (b0 : R) (rest : list R) (items : list eigen_item)
  (x0 q0 x q : list R) :
  foldM (sympy_item (1 :: rest)) items (x0, q0) = Ok (x, q) ->
  foldM (sympy_item (b0 :: rest)) items (x0, map (Rmult b0) q0) =
  Ok (x, map (Rmult b0) q).
Proof.
  revert x0 q0. induction items as [|it items IH]; intros x0 q0; simpl.
  - intros H. injection H as <- <-. reflexivity.
  - destruct it as [[val m] vec]. unfold sympy_item at 1 3.
    destruct (negb (m =? 1)%nat); simpl; [discriminate|].
    destruct (negb (length vec =? 1)%nat); simpl; [discriminate|].
    destruct (getitem vec 0) as [vec0|e]; simpl; [|discriminate].
    destruct (getitem vec0 0) as [v0|e]; simpl; [|discriminate].
    intros H. apply IH in H. rewrite <- H. f_equal. f_equal.
    rewrite map_app. simpl. f_equal. f_equal. unfold Rdiv. ring.
Qed.

Lemma mpmath_offdiag_beta0 (mp : mp_context) (n : nat) (rest : list item)
  (b0 b0' : item) :
  mpmath_offdiag L mp n (b0 :: rest) = mpmath_offdiag L mp n (b0' :: rest).
Proof.
  unfold mpmath_offdiag. apply foldM_ext. intros b i.
  unfold getitem. replace (i + 1)%nat with (S i) by lia. reflexivity.
Qed.

Lemma mpmath_offdiag_with_beta0 (mp : mp_context) (n : nat) (beta : pyseq)
  (c : R) :
  mpmath_offdiag L mp n (seq_items (with_beta0 beta c)) =
  mpmath_offdiag L mp n (seq_items beta).
Proof.
  unfold with_beta0. destruct (seq_items beta) as [|[t v] rest] eqn:E.
  - rewrite E. reflexivity.
  - simpl. apply mpmath_offdiag_beta0.
Qed.

(** In the exact backend [beta[0]] only scales the weights. *)
Lemma sympy_collect_scale (b0 : R) (rest : list R) (items : list eigen_item)
  (x q : list R) :
  sympy_collect L (1 :: rest) items = Ok (Lists x q) ->
  sympy_collect L (b0 :: rest) items = Ok (Lists x (map (Rmult b0) q)).
Proof.
  unfold sympy_collect.
  destruct (foldM (sympy_item (1 :: rest)) items ([], [])) as [[xs qs]|e] eqn:E;
    simpl; [|discriminate].
  apply (sympy_loop_scale b0) in E. simpl in E. rewrite E. simpl.
  destruct (sorted (sympy_lt L) (fun i => nth i xs 0) (seq 0 (length xs)))
    as [order|e]; simpl; [|discriminate].
  intros H. injection H as <- <-. f_equal. f_equal.
  rewrite map_map. apply map_ext. intros i. apply nth_map_scale.
Qed.

Lemma sympy_scales (alpha beta : pyseq) (x q : list R) :
  _gauss_from_coefficients_sympy L alpha (with_beta0 beta 1) = Ok (Lists x q) ->
  _gauss_from_coefficients_sympy L alpha beta =
  Ok (Lists x (map (Rmult (nth 0 (values beta) 0)) q)).
Proof.
  unfold _gauss_from_coefficients_sympy. rewrite sympy_matrix_beta0.
  destruct (sympy_matrix L alpha beta) as [A|e] eqn:HA; simpl; [|discriminate].
  destruct (sympy_eigenvects L A) as [items|e]; simpl; [|discriminate].
  pose proof (sympy_matrix_entries L _ _ _ HA) as [Hn [Hlen _]].
  destruct (values beta) as [|b0 rest] eqn:E; [simpl in Hlen; lia|].
  rewrite (values_with_beta0 beta 1 b0 rest E). simpl.
  apply sympy_collect_scale.
Qed.

Lemma tridiag_of_sym (d e : list number) (i j : nat) :
  tridiag_of d e i j = tridiag_of d e j i.
Proof.
  unfold tridiag_of.
  destruct (Nat.eqb_spec i j); [subst; rewrite Nat.eqb_refl; reflexivity|].
  destruct (Nat.eqb_spec j i); [congruence|].
  destruct (Nat.eqb_spec j (i + 1)), (Nat.eqb_spec i (j + 1));
    try reflexivity; lia.
Qed.

End ZerothMoment.

Section MatrixConsumed.

Import Schemes Contract.

Variable L : libraries.
Variables alpha beta : pyseq.

Let n : nat := length (values alpha).

(** C5, amended.  The exact backend hands [eigenvects] the [n] by [n]
    symmetric tridiagonal matrix with diagonal [alpha] and off-diagonal
    entries [sqrt(beta[k])], [k = 1 .. n-1]; [beta[0]] is no entry of it and
    only scales the weights.  The arbitrary-precision backend hands
    [tridiag_eigen] the diagonal [mp.matrix(alpha)] and the off-diagonal
    entries [mp.sqrt(beta[k])], as mpmath converts and rounds them; they do
    not depend on [beta[0]].  The floating backend hands [eig_banded] the
    array with rows [numpy.sqrt(beta)] and [alpha]: its band is the Jacobi
    matrix, and [numpy.sqrt(beta[0])] is its unused corner. *)
Theorem jacobi_matrix_consumed :
  (forall sq i j,
     let J := jacobi_entry sq (values alpha) (values beta) in
     J i i = nth i (values alpha) 0 /\
     J i (i + 1)%nat = sq (nth (i + 1) (values beta) 0) /\
     J i j = J j i /\
     ((i + 1 < j)%nat -> J i j = 0)) /\
  (sympy_guards alpha beta = true ->
   exists A,
     sympy_matrix L alpha beta = Ok A /\
     square n A /\
     (forall i j, (i < n)%nat -> (j < n)%nat ->
        entry A i j =
        jacobi_entry (sympy_sqrt L) (values alpha) (values beta) i j) /\
     _gauss_from_coefficients_sympy L alpha beta =
       (items <- sympy_eigenvects L A ;; sympy_collect L (values beta) items) /\
     (forall c, sympy_matrix L alpha (with_beta0 beta c) = Ok A) /\
     (forall x q,
        _gauss_from_coefficients_sympy L alpha (with_beta0 beta 1) =
          Ok (Lists x q) ->
        _gauss_from_coefficients_sympy L alpha beta =
          Ok (Lists x (map (Rmult (nth 0 (values beta) 0)) q)))) /\
  (forall mp b z d,
     mpmath_offdiag L mp n (seq_items beta) = Ok b ->
     mpmath_z n = Ok z ->
     mapM (mp_convert L mp) (seq_items alpha) = Ok d ->
     (forall i a, nth_error (seq_items alpha) i = Some a ->
        mp_convert L mp a = Ok (tridiag_of d b i i)) /\
     (forall i bt, (i + 1 < n)%nat ->
        nth_error (seq_items beta) (i + 1) = Some bt ->
        mp_sqrt L mp bt = Ok (tridiag_of d b i (i + 1))) /\
     (forall i j, tridiag_of d b i j = tridiag_of d b j i) /\
     z = [Finite 1 :: repeat (Finite 0) (n - 1)] /\
     mpmath_body L mp alpha beta =
       (out <- tridiag_eigen L mp d b z ;;
        mpmath_collect L mp (seq_items beta) out) /\
     (forall c,
        mpmath_offdiag L mp n (seq_items (with_beta0 beta c)) = Ok b)) /\
  (forall A, numpy_band L alpha beta = Ok A ->
     exists r,
       A = [r; map as_number (seq_items alpha)] /\
       (forall k bt, nth_error (seq_items beta) k = Some bt ->
          exists y, numpy_sqrt L bt = Ok y /\ nth_error r k = Some y) /\
       (forall i j, (i < n)%nat -> (j < n)%nat ->
          band_upper A i j =
          if (i =? j)%nat then Finite (nth i (values alpha) 0)
          else if (j =? i + 1)%nat then nth j r (Finite 0)
          else if (i =? j + 1)%nat then nth i r (Finite 0)
          else Finite 0) /\
       _gauss_from_coefficients_numpy L alpha beta =
         (out <- eig_banded L A ;; numpy_collect L (seq_items beta) out)).
Proof.
  split; [|split; [|split]].
  - intros sq i j. cbv zeta. split; [|split; [|split]].
    + unfold jacobi_entry. rewrite Nat.eqb_refl. reflexivity.
    + apply jacobi_entry_off.
    + apply jacobi_entry_sym.
    + apply jacobi_entry_band.
  - intros Hg. rewrite <- sympy_matrix_ok with (L := L) in Hg.
    destruct (sympy_matrix L alpha beta) as [A|e] eqn:HA; [|discriminate].
    exists A. split; [reflexivity|].
    pose proof (sympy_matrix_entries L _ _ _ HA) as [_ [_ [Hsq Hent]]].
    split; [exact Hsq|]. split; [exact Hent|].
    split.
    { unfold _gauss_from_coefficients_sympy. rewrite HA. reflexivity. }
    split; [intros c; rewrite sympy_matrix_beta0; exact HA|].
    intros x q. apply sympy_scales.
  - intros mp b z d Hb Hz Hd.
    pose proof (mpmath_offdiag_entries L _ _ _ _ Hb) as [Hlb [_ Hbe]].
    pose proof (mapM_length _ _ _ Hd) as [Hld Hde].
    pose proof (mpmath_z_unit _ _ Hz) as [Hn Hzu].
    split; [|split; [|split; [|split; [|split]]]].
    + intros i a E. destruct (Hde i a E) as [y [Hy Ey]].
      unfold tridiag_of. rewrite Nat.eqb_refl.
      rewrite (nth_error_nth _ _ _ Ey). exact Hy.
    + intros i bt Hi E. unfold tridiag_of.
      destruct (Nat.eqb_spec i (i + 1)); [lia|]. rewrite Nat.eqb_refl.
      assert (Hin : (i < n)%nat) by lia.
      specialize (Hbe i Hin).
      destruct (Nat.ltb_spec i (n - 1)); [|lia].
      unfold getitem in Hbe. rewrite E in Hbe. exact Hbe.
    + apply tridiag_of_sym.
    + exact Hzu.
    + unfold mpmath_body. fold n. rewrite Hb. simpl. rewrite Hz. simpl.
      rewrite Hd. reflexivity.
    + intros c. rewrite mpmath_offdiag_with_beta0. exact Hb.
  - intros A HA. pose proof (numpy_band_inv L _ _ _ HA)
      as [_ [_ [_ [r [Hr [Hlr ->]]]]]].
    exists r. split; [reflexivity|]. split; [|split].
    + intros k bt E. apply (proj2 (mapM_length _ _ _ Hr)). exact E.
    + apply (numpy_band_entries alpha beta r Hlr).
    + unfold _gauss_from_coefficients_numpy. rewrite HA. reflexivity.
Qed.

End MatrixConsumed.

Section MatrixConsumedExample.

Import Schemes Contract.

(** The exact backend on the concrete input. *)
Lemma jacobi_matrix_consumed_witness :
  exists A,
    sympy_matrix Demo.lib (Demo.rationals [9; 16]) (Demo.rationals [25; 144]) =
      Ok A /\
    square 2 A /\
    (forall i j, (i < 2)%nat -> (j < 2)%nat ->
       entry A i j = jacobi_entry sqrt [9; 16] [25; 144] i j) /\
    _gauss_from_coefficients_sympy Demo.lib (Demo.rationals [9; 16])
      (Demo.rationals [25; 144]) =
      (items <- sympy_eigenvects Demo.lib A ;;
       sympy_collect Demo.lib [25; 144] items) /\
    (forall c, sympy_matrix Demo.lib (Demo.rationals [9; 16])
                 (with_beta0 (Demo.rationals [25; 144]) c) = Ok A) /\
    (forall x q,
       _gauss_from_coefficients_sympy Demo.lib (Demo.rationals [9; 16])
         (with_beta0 (Demo.rationals [25; 144]) 1) = Ok (Lists x q) ->
       _gauss_from_coefficients_sympy Demo.lib (Demo.rationals [9; 16])
         (Demo.rationals [25; 144]) = Ok (Lists x (map (Rmult 25) q))).
Proof.
  exact (proj1 (proj2 (jacobi_matrix_consumed Demo.lib (Demo.rationals [9; 16])
                         (Demo.rationals [25; 144]))) eq_refl).
Defined.

(** C5, counterexample.  With [alpha = [9., 16.]] the inputs
    [beta = [-25., 144.]] and [beta = [25., 144.]] differ in [beta[0]]
    only and have the same band; on the first the floating backend raises
    ValueError, because [numpy.sqrt(beta[0])] is a nan in the array that
    [eig_banded] checks, and on the second it returns. *)
Lemma corner_reaches_solver :
  (forall A A',
     numpy_band Runs.checked (Demo.floats [9; 16]) (Demo.floats [-25; 144]) =
       Ok A ->
     numpy_band Runs.checked (Demo.floats [9; 16]) (Demo.floats [25; 144]) =
       Ok A' ->
     forall i j, (i < 2)%nat -> (j < 2)%nat ->
       band_upper A i j = band_upper A' i j) /\
  custom Runs.checked (Demo.floats [9; 16]) (Demo.floats [-25; 144]) "numpy" 32
    Demo.mp0 = (Raise ValueError, Demo.mp0) /\
  is_ok (fst (custom Runs.checked (Demo.floats [9; 16]) (Demo.floats [25; 144])
                "numpy" 32 Demo.mp0)) = true.
Proof.
  split; [|split].
  - intros A A' HA HA' i j Hi Hj.
    apply numpy_band_inv in HA, HA'.
    destruct HA as [_ [_ [_ [r [Hr [Hl ->]]]]]].
    destruct HA' as [_ [_ [_ [r' [Hr' [Hl' ->]]]]]].
    rewrite (numpy_band_entries (Demo.floats [9; 16]) (Demo.floats [-25; 144]) r Hl)
      by assumption.
    rewrite (numpy_band_entries (Demo.floats [9; 16]) (Demo.floats [25; 144]) r' Hl')
      by assumption.
    cbn in Hr, Hr'. injection Hr as <-. injection Hr' as <-.
    destruct i as [|[|i]], j as [|[|j]]; try lia; reflexivity.
  - rewrite custom_numpy. f_equal.
    unfold _gauss_from_coefficients_numpy, numpy_band. cbn.
    destruct (Rlt_dec (-25) 0); [|lra]. reflexivity.
  - rewrite custom_numpy.
    unfold _gauss_from_coefficients_numpy, numpy_band. cbn.
    destruct (Rlt_dec 25 0); [lra|]. destruct (Rlt_dec 144 0); [lra|].
    reflexivity.
Qed.

End MatrixConsumedExample.

(* ================================================================== *)
(** * The precision of the arbitrary-precision backend *)

Section Precision.

Import Schemes Contract.

Variable L : libraries.
Variables alpha beta : pyseq.
Variable decimal_places : positive.

Lemma mpmath_body_agree (L' : libraries) (mp : mp_context) :
  (forall t, mp_sqrt L' mp t = mp_sqrt L mp t) ->
  (forall t, mp_convert L' mp t = mp_convert L mp t) ->
  (forall d e z, tridiag_eigen L' mp d e z = tridiag_eigen L mp d e z) ->
  (forall y k, mp_power L' mp y k = mp_power L mp y k) ->
  (forall b y, mul_mpf L' mp b y = mul_mpf L mp b y) ->
  (forall y, sympy_Float L' mp y = sympy_Float L mp y) ->
  mpmath_body L' mp alpha beta = mpmath_body L mp alpha beta.
Proof.
  intros Hs Hc Ht Hp Hm Hf. unfold mpmath_body, mpmath_offdiag.
  rewrite (foldM_ext
             (fun b i => bt <- getitem (seq_items beta) (i + 1) ;;
                         s <- mp_sqrt L' mp bt ;; Ok (set_nth b i s))
             (fun b i => bt <- getitem (seq_items beta) (i + 1) ;;
                         s <- mp_sqrt L mp bt ;; Ok (set_nth b i s))).
  2:{ intros b i. destruct (getitem (seq_items beta) (i + 1)); simpl;
        [rewrite Hs|]; reflexivity. }
  destruct (foldM _ _ _) as [b|e]; simpl; [|reflexivity].
  destruct (mpmath_z _) as [z|e]; simpl; [|reflexivity].
  rewrite (mapM_ext _ _ _ Hc).
  destruct (mapM (mp_convert L mp) _) as [d|e]; simpl; [|reflexivity].
  rewrite Ht. destruct (tridiag_eigen L mp d b z) as [[d' z']|e]; simpl;
    [|reflexivity].
  rewrite (mapM_ext
             (fun ww => b0 <- getitem (seq_items beta) 0 ;;
                        mul_mpf L' mp b0 (mp_power L' mp ww 2))
             (fun ww => b0 <- getitem (seq_items beta) 0 ;;
                        mul_mpf L mp b0 (mp_power L mp ww 2))).
  2:{ intros ww. destruct (getitem (seq_items beta) 0); simpl;
        [rewrite Hp, Hm|]; reflexivity. }
  rewrite (map_ext _ _ Hf). reflexivity.
Qed.

(** C6.  A call of the arbitrary-precision backend leaves [mp.dps] at its
    argument [decimal_places], whatever it was before and whether or not the
    call raises; its result is computed in that context, does not depend on
    the precision set before the call, and depends on mpmath only through
    what mpmath computes at that precision. *)
Theorem mpmath_sets_precision (mp : mp_context) :
  snd (custom L alpha beta "mpmath" decimal_places mp) = mk_mp decimal_places /\
  fst (custom L alpha beta "mpmath" decimal_places mp) =
    mpmath_body L (mk_mp decimal_places) alpha beta /\
  (forall mp2, fst (custom L alpha beta "mpmath" decimal_places mp2) =
               fst (custom L alpha beta "mpmath" decimal_places mp)) /\
  (forall L',
     (forall t, mp_sqrt L' (mk_mp decimal_places) t =
                mp_sqrt L (mk_mp decimal_places) t) ->
     (forall t, mp_convert L' (mk_mp decimal_places) t =
                mp_convert L (mk_mp decimal_places) t) ->
     (forall d e z, tridiag_eigen L' (mk_mp decimal_places) d e z =
                    tridiag_eigen L (mk_mp decimal_places) d e z) ->
     (forall y k, mp_power L' (mk_mp decimal_places) y k =
                  mp_power L (mk_mp decimal_places) y k) ->
     (forall b y, mul_mpf L' (mk_mp decimal_places) b y =
                  mul_mpf L (mk_mp decimal_places) b y) ->
     (forall y, sympy_Float L' (mk_mp decimal_places) y =
                sympy_Float L (mk_mp decimal_places) y) ->
     fst (custom L' alpha beta "mpmath" decimal_places mp) =
     fst (custom L alpha beta "mpmath" decimal_places mp)).
Proof.
  split; [reflexivity|]. split; [reflexivity|]. split; [reflexivity|].
  intros L' Hs Hc Ht Hp Hm Hf. apply mpmath_body_agree; assumption.
Qed.

End Precision.

(* ================================================================== *)
(** * The backend selector *)

Section Dispatch.

Import Schemes Contract.

Variable L : libraries.
Variables alpha beta : pyseq.
Variable decimal_places : positive.
Variable mp : mp_context.

(** C9.  A selector other than ['sympy'], ['mpmath'] and ['numpy'] makes
    [custom] raise at its [assert], before any backend is entered and with
    [mp] untouched; each of the three selectors runs its own backend. *)
Theorem custom_dispatch :
  (forall mode, mode <> "sympy"%string -> mode <> "mpmath"%string ->
     mode <> "numpy"%string ->
     custom L alpha beta mode decimal_places mp = (Raise AssertionError, mp)) /\
  custom L alpha beta "sympy" decimal_places mp =
    (_gauss_from_coefficients_sympy L alpha beta, mp) /\
  custom L alpha beta "mpmath" decimal_places mp =
    _gauss_from_coefficients_mpmath L alpha beta decimal_places mp /\
  custom L alpha beta "numpy" decimal_places mp =
    (_gauss_from_coefficients_numpy L alpha beta, mp).
Proof.
  split; [|split; [|split]]; try reflexivity.
  intros mode Hs Hm Hn. unfold custom.
  destruct (String.eqb_spec mode "sympy"); [contradiction|].
  destruct (String.eqb_spec mode "mpmath"); [contradiction|].
  destruct (String.eqb_spec mode "numpy"); [contradiction|].
  reflexivity.
Qed.

End Dispatch.

Section DispatchExample.

Import Schemes.

(** The selector ['scipy'] is refused, whatever the libraries and the
    coefficients. *)
Lemma custom_dispatch_witness :
  custom Demo.lib (Demo.rationals [9; 16]) (Demo.rationals [25; 144]) "scipy" 32
    Demo.mp0 = (Raise AssertionError, Demo.mp0).
Proof.
  apply (proj1 (custom_dispatch Demo.lib (Demo.rationals [9; 16])
                  (Demo.rationals [25; 144]) 32 Demo.mp0) "scipy"%string);
    discriminate.
Defined.

End DispatchExample.


(* ================================================================== *)
(** * Gegenbauer as a constrained Jacobi *)

Section GegenbauerIsJacobi.

Import Gegenbauer.

Variables X Scaling Number Symbolic Instance Value : Type.
Variable jacobi_Eval :
  pyclass Instance Value (X * Scaling * Number * Number * Symbolic).
Variable jacobi_RecurrenceCoefficients :
  pyclass Instance Value (Scaling * Number * Number * Symbolic).

(** Method calls go through the method table only. *)
Lemma calls_inherited {Args Args' : Type} (c : pyclass Instance Value Args)
  (c' : pyclass Instance Value Args') (l : list (string * Value))
  (self : Instance) :
  method Instance Value Args c = method Instance Value Args' c' ->
  calls Instance Value c l self = calls Instance Value c' l self.
Proof.
  intros H. revert self. induction l as [|[name arg] rest IH]; intros self;
    simpl; [reflexivity|].
  rewrite H. destruct (method _ _ _ c' name arg self) as [[v self']|e]; simpl;
    [rewrite IH|]; reflexivity.
Qed.

(** C7.  A Gegenbauer evaluator, or provider of recurrence coefficients,
    built from [lmbda] answers every sequence of method calls as the Jacobi
    one built with both parameters equal to [lmbda]. *)
Theorem gegenbauer_is_jacobi (x : X) (scaling : Scaling) (lmbda : Number)
  (symbolic : Symbolic) (l : list (string * Value)) :
  construct_and_call Instance Value
    (Eval X Scaling Number Symbolic Instance Value jacobi_Eval)
    (x, scaling, lmbda, symbolic) l =
  construct_and_call Instance Value jacobi_Eval
    (x, scaling, lmbda, lmbda, symbolic) l /\
  construct_and_call Instance Value
    (RecurrenceCoefficients Scaling Number Symbolic Instance Value
       jacobi_RecurrenceCoefficients)
    (scaling, lmbda, symbolic) l =
  construct_and_call Instance Value jacobi_RecurrenceCoefficients
    (scaling, lmbda, lmbda, symbolic) l.
Proof.
  unfold construct_and_call. split.
  - simpl. destruct (init _ _ _ jacobi_Eval _) as [self|e]; simpl;
      [|reflexivity].
    apply calls_inherited. reflexivity.
  - simpl. destruct (init _ _ _ jacobi_RecurrenceCoefficients _) as [self|e];
      simpl; [|reflexivity].
    apply calls_inherited. reflexivity.
Qed.

End GegenbauerIsJacobi.

(* ================================================================== *)
(** * The normalization constant of the Gaussian product evaluator *)

Section GaussianNormalization.

Import Enr2.

Variable X : Type.
Variable dtype_is_Basic : X -> bool.

(** C8.  For both standardizations, [Eval] and [EvalWithDegrees] hand the
    product base [sqrt(pi)]: sympy's in symbolic mode, numpy's otherwise,
    where ["auto"] means symbolic exactly when the points have sympy's
    dtype. *)
Theorem enr2_int_1_is_sqrt_pi (x : X) (symbolic : symbolic_arg) :
  let flag := match symbolic with Auto => dtype_is_Basic x | Flag b => b end in
  let sqrt_pi :=
    if flag then sympy_sqrt_of sympy_pi else numpy_sqrt_of numpy_pi in
  let args := fun cls =>
    Ok {| rc := (cls, flag); int_1 := sqrt_pi; points := x; symbolic := flag |} in
  Eval X dtype_is_Basic x "probabilists" symbolic = args RCProbabilistNormal /\
  Eval X dtype_is_Basic x "physicists" symbolic = args RCPhysicistNormal /\
  EvalWithDegrees X dtype_is_Basic x "probabilists" symbolic =
    args RCProbabilistNormal /\
  EvalWithDegrees X dtype_is_Basic x "physicists" symbolic =
    args RCPhysicistNormal.
Proof.
  unfold Eval, EvalWithDegrees.
  destruct symbolic as [|[|]]; simpl; try destruct (dtype_is_Basic x);
    repeat split; reflexivity.
Qed.

End GaussianNormalization.


(* ================================================================== *)
(** * The convenience wrappers *)

Section Wrappers.

Import Schemes Contract.

Variable L : libraries.
Variable RC : recurrence_coefficients.
Variable decimal_places : positive.
Variable mp : mp_context.

(** What a wrapper does with the coefficients of its family when it rounds
    [beta[0]] first. *)
Let rounding (rc : result (pyseq * pyseq)) : result rule * mp_context :=
  match rc with
  | Raise e => (Raise e, mp)
  | Ok (alpha, beta) =>
      match seq_items beta with
      | [] => (Raise IndexError, mp)
      | (_, b0) :: rest =>
          custom L alpha
            (mkseq (seq_type beta)
               ((SympyFloat, sympy_N L b0 decimal_places) :: rest))
            "mpmath" decimal_places mp
      end
  end.

(** What a wrapper does when it passes the coefficients on as they are. *)
Let passing (rc : result (pyseq * pyseq)) : result rule * mp_context :=
  match rc with
  | Raise e => (Raise e, mp)
  | Ok (alpha, beta) => custom L alpha beta "mpmath" decimal_places mp
  end.

Lemma rounding_run (rc : result (pyseq * pyseq)) :
  bindM (lift rc)
    (fun '(alpha, beta) =>
       bindM (lift (round_beta0 L beta decimal_places))
         (fun beta => custom L alpha beta "mpmath" decimal_places)) mp =
  rounding rc.
Proof.
  unfold bindM, lift, rounding, round_beta0, getitem, setitem0, values.
  destruct rc as [[alpha beta]|e]; [|reflexivity].
  destruct (seq_items beta) as [|[t b0] rest]; reflexivity.
Qed.

Lemma rounded_scaling (alpha beta : pyseq) (r : rule) (mp' : mp_context) :
  rounding (Ok (alpha, beta)) = (Ok r, mp') ->
  exists x w t b0 rest zs,
    r = Arrays x w /\
    seq_items beta = (t, b0) :: rest /\
    mapM (fun ww => mul_mpf L mp' (SympyFloat, sympy_N L b0 decimal_places)
                      (mp_power L mp' ww 2)) zs = Ok w /\
    passing (Ok (alpha, beta)) =
    (w' <- mapM (fun ww => mul_mpf L mp' (t, b0) (mp_power L mp' ww 2)) zs ;;
     Ok (Arrays x w'), mp').
Proof.
  unfold rounding, passing.
  destruct (seq_items beta) as [|[t b0] rest] eqn:E; [discriminate|].
  rewrite !custom_mpmath. intros H. injection H as H <-.
  apply mpmath_body_iff in H.
  destruct H as [b [z [d [d' [z' [w [Hb [Hz [Hd [Ht [Hw ->]]]]]]]]]]].
  exists (map (sympy_Float L (mk_mp decimal_places)) d'), w, t, b0, rest,
    (concat z').
  split; [reflexivity|]. split; [reflexivity|].
  cbn [seq_items] in Hb, Hw. split; [exact Hw|].
  f_equal. unfold mpmath_body.
  rewrite E.
  rewrite (mpmath_offdiag_beta0 L _ _ _ (t, b0)
             (SympyFloat, sympy_N L b0 decimal_places)).
  unfold item in *. rewrite Hb.
  simpl. rewrite Hz. simpl. rewrite Hd. simpl. rewrite Ht. reflexivity.
Qed.

(** C10.  [chebyshev1], [chebyshev2] and [hermite] replace [beta[0]] by
    [sympy.N(beta[0], decimal_places)] before they call the
    arbitrary-precision backend, so their weights are scaled by that
    decimal; [legendre], [jacobi], [laguerre] and [laguerre_generalized]
    pass [beta] on as it is, and their weights are scaled by [beta[0]]
    itself.  Nodes and squared first components are the same either way. *)
Theorem wrappers_round_zeroth_moment (n : nat) (a b : R) :
  chebyshev1 L RC n decimal_places mp = rounding (rc_chebyshev1 RC n) /\
  chebyshev2 L RC n decimal_places mp = rounding (rc_chebyshev2 RC n) /\
  hermite L RC n decimal_places mp = rounding (rc_hermite RC n) /\
  legendre L RC n decimal_places mp = passing (rc_legendre RC n "sympy") /\
  jacobi L RC a b n decimal_places mp = passing (rc_jacobi RC n a b "sympy") /\
  laguerre L RC n decimal_places mp = passing (rc_laguerre RC n) /\
  laguerre_generalized L RC n a decimal_places mp =
    passing (rc_laguerre_generalized RC n a) /\
  forall alpha beta r mp',
    rounding (Ok (alpha, beta)) = (Ok r, mp') ->
    exists x w t b0 rest zs,
      r = Arrays x w /\
      seq_items beta = (t, b0) :: rest /\
      mapM (fun ww => mul_mpf L mp' (SympyFloat, sympy_N L b0 decimal_places)
                        (mp_power L mp' ww 2)) zs = Ok w /\
      passing (Ok (alpha, beta)) =
      (w' <- mapM (fun ww => mul_mpf L mp' (t, b0) (mp_power L mp' ww 2)) zs ;;
       Ok (Arrays x w'), mp').
Proof.
  split; [apply rounding_run|]. split; [apply rounding_run|].
  split; [apply rounding_run|].
  assert (Hp : forall rc,
            bindM (lift rc)
              (fun '(alpha, beta) => custom L alpha beta "mpmath" decimal_places)
              mp = passing rc).
  { intros [[alpha beta]|e]; reflexivity. }
  split; [apply Hp|]. split; [apply Hp|]. split; [apply Hp|].
  split; [apply Hp|].
  exact rounded_scaling.
Qed.

End Wrappers.

Section WrappersExample.

Import Schemes Contract.

(** On the concrete input, where [sympy.N] has nothing to round, the
    rounding wrappers and the others return the same rule. *)
Lemma wrappers_round_zeroth_moment_witness :
  exists x w t b0 rest zs,
    Arrays [Finite 0; Finite 25] [Finite 16; Finite 9] = Arrays x w /\
    seq_items (Demo.rationals [25; 144]) = (t, b0) :: rest /\
    mapM (fun ww => mul_mpf Demo.lib (mk_mp 32)
                      (SympyFloat, sympy_N Demo.lib b0 32)
                      (mp_power Demo.lib (mk_mp 32) ww 2)) zs = Ok w /\
    custom Demo.lib (Demo.rationals [9; 16]) (Demo.rationals [25; 144])
      "mpmath" 32 Demo.mp0 =
    (w' <- mapM (fun ww => mul_mpf Demo.lib (mk_mp 32) (t, b0)
                             (mp_power Demo.lib (mk_mp 32) ww 2)) zs ;;
     Ok (Arrays x w'), mk_mp 32).
Proof.
  apply (proj2 (proj2 (proj2 (proj2 (proj2 (proj2 (proj2
           (wrappers_round_zeroth_moment Demo.lib Demo.rc 32 Demo.mp0
              2%nat 0 0))))))) (Demo.rationals [9; 16])
           (Demo.rationals [25; 144])).
  cbn [seq_items Demo.rationals map].
  rewrite custom_mpmath. f_equal. unfold mpmath_body. cbn.
  repeat f_equal; field.
Defined.

End WrappersExample.

(* ================================================================== *)
(** * The spectral decomposition behind a rule *)

Section SpectralDecomposition.

Variable n : nat.
Variable J : nat -> nat -> R.
Variable V : nat -> nat -> R.
Variable lam : nat -> R.
Hypothesis V_eig : forall i, (i < n)%nat -> eigenpair n J (lam i) (V i).
Hypothesis V_orth : forall i j, (i < n)%nat -> (j < n)%nat -> i <> j ->
  dot n (V i) (V j) = 0.

Let N (i : nat) : R := dot n (V i) (V i).






End SpectralDecomposition.

(* ================================================================== *)
(** * Moments and trace of the rule of the exact backend *)

Section CustomMoments.

Import Schemes Contract.

Variable L : libraries.
Variables alpha beta : pyseq.
Variable decimal_places : positive.

Let n : nat := length (values alpha).
Let sq : R -> R := sympy_sqrt L.
Let J : nat -> nat -> R := jacobi_entry sq (values alpha) (values beta).
Let beta0 : R := nth 0 (values beta) 0.







End CustomMoments.

Section CustomMomentsExamples.

Import Schemes Contract.

Let J : nat -> nat -> R := jacobi_entry sqrt [9; 16] [25; 144].




End CustomMomentsExamples.


(* ================================================================== *)
(** * [_sympy_tridiag] on every input *)

Section SympyTridiag.

Import Schemes.

Variables a b : list R.

(** X5.  [_sympy_tridiag(a, b)] raises AssertionError exactly when [a] and
    [b] differ in length; otherwise it returns a square matrix of the size
    of [a] that is symmetric, has [a] on its diagonal and [b[i+1]] between
    rows [i] and [i+1], and is zero elsewhere. *)
Theorem sympy_tridiag_total :
  (length a <> length b -> _sympy_tridiag a b = Raise AssertionError) /\
  (length a = length b ->
   exists A, _sympy_tridiag a b = Ok A /\
     square (length a) A /\
     forall i j, (i < length a)%nat -> (j < length a)%nat ->
       entry A i j = entry A j i /\
       entry A i i = nth i a 0 /\
       ((j = i + 1)%nat -> entry A i j = nth j b 0) /\
       ((i + 1 < j)%nat -> entry A i j = 0)).
Proof.
  split.
  - intros H. unfold _sympy_tridiag.
    destruct (Nat.eqb_spec (length a) (length b)); [contradiction|].
    reflexivity.
  - intros H. destruct (_sympy_tridiag a b) as [A|e] eqn:E.
    + exists A. split; [reflexivity|].
      destruct (sympy_tridiag_entries a b A E) as [_ [Hsq Hent]].
      split; [assumption|]. intros i j Hi Hj.
      rewrite !Hent by assumption. split; [apply jacobi_entry_sym|].
      split; [unfold jacobi_entry; rewrite Nat.eqb_refl; reflexivity|].
      split.
      * intros ->. apply (jacobi_entry_off (fun t => t)).
      * apply jacobi_entry_band.
    + exfalso. unfold _sympy_tridiag in E.
      destruct (Nat.eqb_spec (length a) (length b)); [|contradiction].
      discriminate.
Qed.

End SympyTridiag.

(* ================================================================== *)
(** * The sort of the exact backend *)

Section ExactBackendSort.

Import Schemes Contract.

Lemma map_nth_seq {A B : Type} (g : A -> B) (l : list A) (d : A) :
  map (fun i => g (nth i l d)) (seq 0 (length l)) = map g l.
Proof.
  induction l as [|h t IH]; [reflexivity|].
  simpl. f_equal. rewrite <- seq_shift, map_map. exact IH.
Qed.

Lemma combine_map_same {A : Type} (f g : A -> R) (l : list A) :
  combine (map f l) (map g l) = map (fun i => (f i, g i)) l.
Proof. induction l as [|h t IH]; simpl; [|rewrite IH]; reflexivity. Qed.

Lemma combine_inj (x x' w w' : list R) :
  length w = length x -> length w' = length x' ->
  combine x w = combine x' w' -> x = x' /\ w = w'.
Proof.
  revert x' w w'. induction x as [|a x IH]; intros x' w w' Hw Hw' E.
  - destruct w; [|discriminate]. destruct x' as [|a' x'].
    + destruct w'; [auto | discriminate].
    + destruct w'; discriminate.
  - destruct w as [|b w]; [discriminate|].
    destruct x' as [|a' x']; [discriminate|].
    destruct w' as [|b' w']; [discriminate|].
    simpl in *. injection E as -> -> E.
    destruct (IH x' w w') as [-> ->]; auto.
Qed.

(** The pairs the sort returns are a rearrangement of the pairs the loop
    has computed. *)
Lemma sorted_pairs (beta0 : R) (items : list eigen_item) :
  let xs := map item_value items in
  let ws := map (item_weight beta0) items in
  let order := stable_sort (fun i => nth i xs 0) (seq 0 (length xs)) in
  Permutation
    (combine (map (fun i => nth i xs 0) order) (map (fun i => nth i ws 0) order))
    (map (item_pair beta0) items).
Proof.
  cbv zeta. rewrite combine_map_same.
  set (d := (0, 0%nat, @nil vector) : eigen_item).
  apply perm_trans with
    (map (fun i => (nth i (map item_value items) 0,
                    nth i (map (item_weight beta0) items) 0))
         (seq 0 (length (map item_value items)))).
  - apply Permutation_map, stable_sort_perm.
  - rewrite length_map, <- (map_nth_seq (item_pair beta0) items d).
    apply Permutation_refl'. apply map_ext_in. intros i Hi.
    apply in_seq in Hi. unfold item_pair.
    rewrite !(nth_map_default _ _ _ d) by lia. reflexivity.
Qed.

Lemma sympy_collect_pairs (L : libraries) (b : list R)
  (items : list eigen_item) (x w : list R) :
  sympy_collect L b items = Ok (Lists x w) ->
  StronglySorted Rle x /\
  length w = length x /\
  Permutation (combine x w) (map (item_pair (nth 0 b 0)) items).
Proof.
  intros H. apply sympy_collect_inv in H.
  destruct H as [xs [ws [Hloop Hr]]]. cbv zeta in Hr. injection Hr as -> ->.
  apply sympy_loop_inv in Hloop. destruct Hloop as [_ [Hxs Hws]].
  simpl in Hxs, Hws. subst xs ws.
  split; [apply (stable_sort_keys_ascend
                   (fun i => nth i (map item_value items) 0))|].
  split; [rewrite !length_map; reflexivity|].
  apply sorted_pairs.
Qed.

Variable L : libraries.
Variables alpha beta : pyseq.

Let beta0 : R := nth 0 (values beta) 0.

(** X6.  Whenever the exact backend returns, with no assumption on
    [eigenvects], the nodes ascend and the (node, weight) pairs are a
    rearrangement of the pairs computed from the items of [eigenvects]: the
    sort moves each weight with its node. *)
Theorem sympy_result_pairs (x w : list R) :
  _gauss_from_coefficients_sympy L alpha beta = Ok (Lists x w) ->
  exists A items,
    sympy_matrix L alpha beta = Ok A /\
    sympy_eigenvects L A = Ok items /\
    StronglySorted Rle x /\
    length w = length x /\
    Permutation (combine x w) (map (item_pair beta0) items).
Proof.
  unfold _gauss_from_coefficients_sympy.
  destruct (sympy_matrix L alpha beta) as [A|e]; simpl; [|discriminate].
  destruct (sympy_eigenvects L A) as [items|e] eqn:Ev; simpl; [|discriminate].
  intros H. exists A, items. split; [reflexivity|]. split; [exact Ev|].
  apply (sympy_collect_pairs L _ _ _ _ H).
Qed.

Lemma sympy_item_acc (b : list R) (acc acc' : list R * list R) (it : eigen_item) :
  is_ok (sympy_item b acc it) = is_ok (sympy_item b acc' it).
Proof.
  destruct it as [[val m] vec], acc as [x0 w0], acc' as [x1 w1].
  unfold sympy_item.
  destruct (negb (m =? 1)%nat); [reflexivity|].
  destruct (negb (length vec =? 1)%nat); [reflexivity|].
  destruct (getitem vec 0) as [vec0|]; simpl; [|reflexivity].
  destruct (getitem b 0) as [b0|]; simpl; [|reflexivity].
  destruct (getitem vec0 0) as [v0|]; reflexivity.
Qed.

(** The loop returns exactly when every item passes on its own. *)
Lemma sympy_loop_passes (b : list R) (items : list eigen_item)
  (acc : list R * list R) :
  is_ok (foldM (sympy_item b) items acc) = true <->
  Forall (fun it => is_ok (sympy_item b ([], []) it) = true) items.
Proof.
  revert acc. induction items as [|it items IH]; intros acc; simpl.
  - split; auto.
  - pose proof (sympy_item_acc b acc ([], []) it) as Hacc.
    destruct (sympy_item b acc it) as [acc1|e]; simpl in *.
    + rewrite IH. split.
      * intros H. constructor; [congruence | assumption].
      * intros H. inversion H; assumption.
    + split; [discriminate|]. intros H. inversion H; congruence.
Qed.

Lemma strict_pairs (x w : list R) :
  StronglySorted Rlt x -> length w = length x ->
  StronglySorted (fun p q : R * R => fst p < fst q) (combine x w).
Proof.
  intros Hs. revert w. induction Hs as [|a x Hx IH Ha]; intros w Hw.
  - constructor.
  - destruct w as [|b w]; [discriminate|]. simpl. constructor.
    + apply IH. simpl in Hw. lia.
    + rewrite Forall_forall in *. intros [c e] Hin. simpl.
      apply Ha. apply (in_combine_l _ _ _ _ Hin).
Qed.

Lemma strict_pairs_unique (p1 p2 : list (R * R)) :
  StronglySorted (fun p q : R * R => fst p < fst q) p1 ->
  StronglySorted (fun p q : R * R => fst p < fst q) p2 ->
  Permutation p1 p2 -> p1 = p2.
Proof.
  intros H1. revert p2. induction H1 as [|a t1 Ht1 IH Ha]; intros p2 H2 Hp.
  - symmetry. apply Permutation_nil. assumption.
  - destruct H2 as [|b t2 Ht2 Hb].
    { apply Permutation_sym, Permutation_nil in Hp. discriminate. }
    rewrite Forall_forall in Ha, Hb.
    assert (Eab : a = b).
    { assert (Hin1 : In a (b :: t2))
        by (apply (Permutation_in _ Hp); left; reflexivity).
      assert (Hin2 : In b (a :: t1))
        by (apply (Permutation_in _ (Permutation_sym Hp)); left; reflexivity).
      destruct Hin1 as [E|Hi1]; [auto|].
      destruct Hin2 as [E|Hi2]; [auto|].
      pose proof (Hb a Hi1). pose proof (Ha b Hi2). lra. }
    subst b. f_equal. apply IH; [assumption|].
    apply (Permutation_cons_inv Hp).
Qed.

Lemma map_fst_combine (y v : list R) :
  length v = length y -> map fst (combine y v) = y.
Proof.
  revert v. induction y as [|a y IH]; intros v Hl; [reflexivity|].
  destruct v as [|b v]; [discriminate|]. simpl. f_equal.
  apply IH. simpl in Hl. lia.
Qed.

(** X7.  With distinct eigenvalues that sympy can order, the result of the
    exact backend does not depend on the order in which [eigenvects] lists
    its items. *)
Theorem sympy_order_independent (ev' : matrix -> result (list eigen_item))
  (A : matrix) (items items' : list eigen_item) (x w : list R) :
  sympy_matrix L alpha beta = Ok A ->
  sympy_eigenvects L A = Ok items ->
  ev' A = Ok items' ->
  Permutation items items' ->
  NoDup (map item_value items) ->
  decides_all L (map item_value items) ->
  _gauss_from_coefficients_sympy L alpha beta = Ok (Lists x w) ->
  _gauss_from_coefficients_sympy (with_eigenvects L ev') alpha beta =
  Ok (Lists x w).
Proof.
  intros HA Hev Hev' Hperm Hnd Hdec H.
  assert (Hrun : _gauss_from_coefficients_sympy L alpha beta =
                 sympy_collect L (values beta) items).
  { unfold _gauss_from_coefficients_sympy. rewrite HA. simpl. rewrite Hev.
    reflexivity. }
  assert (Hrun' : _gauss_from_coefficients_sympy (with_eigenvects L ev')
                    alpha beta = sympy_collect L (values beta) items').
  { unfold _gauss_from_coefficients_sympy.
    change (sympy_matrix (with_eigenvects L ev') alpha beta)
      with (sympy_matrix L alpha beta).
    rewrite HA. simpl. rewrite Hev'. reflexivity. }
  rewrite Hrun in H. rewrite Hrun'.
  assert (Hret : exists x' w',
            sympy_collect L (values beta) items' = Ok (Lists x' w')).
  { unfold sympy_collect.
    assert (Hok : is_ok (foldM (sympy_item (values beta)) items' ([], []))
                  = true).
    { apply sympy_loop_passes. apply (Permutation_Forall Hperm).
      apply (sympy_loop_passes (values beta) _ ([], [])).
      unfold sympy_collect in H.
      destruct (foldM (sympy_item (values beta)) items ([], []));
        [reflexivity | discriminate]. }
    destruct (foldM (sympy_item (values beta)) items' ([], []))
      as [[xs' ws']|e] eqn:E; [|discriminate].
    simpl. apply sympy_loop_inv in E. destruct E as [_ [Hxs _]].
    simpl in Hxs. subst xs'.
    rewrite sorted_decided.
    - simpl. eauto.
    - intros i j Hi Hj. apply in_seq in Hi, Hj.
      assert (Hin : forall k, (k < length (map item_value items'))%nat ->
                In (nth k (map item_value items') 0) (map item_value items)).
      { intros k Hk.
        apply (Permutation_in _ (Permutation_sym
                                   (Permutation_map item_value Hperm))).
        apply nth_In. assumption. }
      apply Hdec; apply Hin; lia. }
  destruct Hret as [x' [w' H']]. rewrite H'.
  destruct (sympy_collect_pairs L _ _ _ _ H) as [Hasc [Hlen Hp]].
  destruct (sympy_collect_pairs L _ _ _ _ H') as [Hasc' [Hlen' Hp']].
  fold beta0 in Hp, Hp'.
  assert (Hkeys : forall y v, length v = length y ->
            Permutation (combine y v) (map (item_pair beta0) items) ->
            StronglySorted Rle y -> StronglySorted Rlt y).
  { intros y v Hl Hpy Hsy. apply ascending_distinct_strict; [assumption|].
    assert (Hndy : NoDup y).
    { apply (Permutation_map fst) in Hpy.
      rewrite map_map in Hpy. simpl in Hpy.
      rewrite (map_fst_combine y v Hl) in Hpy.
      apply (Permutation_NoDup (Permutation_sym Hpy)). exact Hnd. }
    intros i j Hi Hj Hne E. apply Hne.
    apply (proj1 (NoDup_nth y 0) Hndy); assumption. }
  assert (Hpx' : Permutation (combine x' w') (map (item_pair beta0) items))
    by (apply (perm_trans Hp'), Permutation_map, Permutation_sym, Hperm).
  assert (E : combine x w = combine x' w').
  { apply strict_pairs_unique.
    - apply strict_pairs; [apply (Hkeys x w) | ]; assumption.
    - apply strict_pairs; [apply (Hkeys x' w') | ]; assumption.
    - apply (perm_trans Hp), Permutation_sym, Hpx'. }
  destruct (combine_inj x x' w w' Hlen Hlen' E) as [-> ->]. reflexivity.
Qed.

End ExactBackendSort.

Section ExactBackendSortExamples.

Import Schemes Contract.

Lemma demo_backend_sympy :
  _gauss_from_coefficients_sympy Demo.lib (Demo.rationals [9; 16])
    (Demo.rationals [25; 144]) = Ok (Lists [0; 25] [16; 9]).
Proof.
  pose proof demo_run_sympy as H. rewrite custom_sympy in H.
  injection H as H. exact H.
Qed.

Lemma sympy_result_pairs_witness :
  exists A items,
    sympy_matrix Demo.lib (Demo.rationals [9; 16])
      (Demo.rationals [25; 144]) = Ok A /\
    sympy_eigenvects Demo.lib A = Ok items /\
    StronglySorted Rle [0; 25] /\
    length [16; 9] = length [0; 25] /\
    Permutation (combine [0; 25] [16; 9])
      (map (item_pair (nth 0 (values (Demo.rationals [25; 144])) 0)) items).
Proof.
  exact (sympy_result_pairs Demo.lib _ _ _ _ demo_backend_sympy).
Defined.

(** [eigenvects] listing the smaller eigenvalue first gives the same rule. *)
Lemma sympy_order_independent_witness :
  _gauss_from_coefficients_sympy
    (with_eigenvects Demo.lib
       (fun _ => Ok [(0, 1%nat, [[-4; 3]]); (25, 1%nat, [[3; 4]])]))
    (Demo.rationals [9; 16]) (Demo.rationals [25; 144]) =
  Ok (Lists [0; 25] [16; 9]).
Proof.
  apply (sympy_order_independent Demo.lib (Demo.rationals [9; 16])
           (Demo.rationals [25; 144])
           (fun _ => Ok [(0, 1%nat, [[-4; 3]]); (25, 1%nat, [[3; 4]])])
           [[9; sqrt 144]; [sqrt 144; 16]]
           [(25, 1%nat, [[3; 4]]); (0, 1%nat, [[-4; 3]])]
           [(0, 1%nat, [[-4; 3]]); (25, 1%nat, [[3; 4]])]).
  - reflexivity.
  - reflexivity.
  - reflexivity.
  - apply perm_swap.
  - cbn. repeat constructor; simpl; intuition lra.
  - intros a b _ _. reflexivity.
  - exact demo_backend_sympy.
Defined.

End ExactBackendSortExamples.

(* ================================================================== *)
(** * Lengths of the coefficient sequences *)

Section Lengths.

Import Schemes Contract.

Variable L : libraries.

Lemma foldM_ext_in {A B : Type} (f g : A -> B -> result A) (l : list B) (a : A) :
  (forall x y, In y l -> f x y = g x y) -> foldM f l a = foldM g l a.
Proof.
  revert a. induction l as [|b l IH]; intros a H; simpl; [reflexivity|].
  rewrite (H a b) by (left; reflexivity).
  destruct (g a b); simpl; [|reflexivity].
  apply IH. intros x y Hy. apply H. right. assumption.
Qed.

(** A loop whose body can only raise [e] raises [e] as soon as one of its
    iterations must raise. *)
Lemma foldM_raises {A B : Type} (f : A -> B -> result A) (e : exn)
  (l : list B) (a : A) :
  (forall x y, In y l -> f x y = Raise e \/ exists x', f x y = Ok x') ->
  (exists y, In y l /\ forall x, f x y = Raise e) ->
  foldM f l a = Raise e.
Proof.
  revert a. induction l as [|b l IH]; intros a Hall [y [Hy Hr]];
    [contradiction|].
  simpl. destruct (Hall a b (or_introl eq_refl)) as [E | [a' E]]; rewrite E;
    [reflexivity|]. simpl.
  destruct Hy as [<- | Hy]; [rewrite Hr in E; discriminate|].
  apply IH.
  - intros x z Hz. apply Hall. right. assumption.
  - exists y. split; assumption.
Qed.

(** A loop with an iteration that cannot return does not return. *)
Lemma foldM_stops {A B : Type} (f : A -> B -> result A) (l : list B) (a : A) :
  (exists y, In y l /\ forall x, is_ok (f x y) = false) ->
  is_ok (foldM f l a) = false.
Proof.
  revert a. induction l as [|b l IH]; intros a [y [Hy Hr]]; [contradiction|].
  simpl. destruct (f a b) as [a'|e] eqn:E; simpl; [|reflexivity].
  destruct Hy as [<- | Hy].
  - specialize (Hr a). rewrite E in Hr. discriminate.
  - apply IH. exists y. split; assumption.
Qed.

Lemma getitem_firstn {A : Type} (l : list A) (n i : nat) :
  (i < n)%nat -> getitem (firstn n l) i = getitem l i.
Proof.
  unfold getitem. revert l i. induction n as [|n IH]; intros l i Hi; [lia|].
  destruct l as [|h t]; [reflexivity|].
  destruct i as [|i]; [reflexivity|]. simpl. apply IH. lia.
Qed.

Lemma values_length (s : pyseq) : length (values s) = length (seq_items s).
Proof. unfold values. apply length_map. Qed.

Variables alpha beta : pyseq.

(** The index at which the loop of the arbitrary-precision backend leaves
    a shorter [beta]. *)
Lemma mpmath_offdiag_short (mp : mp_context) :
  (2 <= length (values alpha))%nat ->
  (length (values beta) < length (values alpha))%nat ->
  exists i, In i (seq 0 (length (values alpha) - 1)) /\
            getitem (seq_items beta) (i + 1) = Raise IndexError.
Proof.
  intros H2 Hlt. exists (length (values alpha) - 2)%nat.
  split; [apply in_seq; lia|]. unfold getitem.
  replace (nth_error (seq_items beta) (length (values alpha) - 2 + 1))
    with (@None item); [reflexivity|].
  symmetry. apply nth_error_None. rewrite <- values_length. lia.
Qed.

(** X8.  When [alpha] and [beta] differ in length, the exact and the
    floating backend never return, and neither does the arbitrary-precision
    backend when [beta] is the shorter one and [alpha] has at least two
    elements.  The exact backend raises AssertionError once [alpha[0]] has
    passed its type check; the floating backend raises ValueError once
    both arguments have passed theirs and [numpy.sqrt(beta)] has returned;
    the arbitrary-precision backend raises IndexError when [mp.sqrt]
    accepts the elements of [beta]. *)
Theorem length_mismatch_errors :
  length (values alpha) <> length (values beta) ->
  (is_ok (_gauss_from_coefficients_sympy L alpha beta) = false /\
   forall t v rest, seq_items alpha = (t, v) :: rest -> is_Rational t = true ->
     _gauss_from_coefficients_sympy L alpha beta = Raise AssertionError) /\
  (is_ok (_gauss_from_coefficients_numpy L alpha beta) = false /\
   forall r, is_ndarray alpha = true -> is_ndarray beta = true ->
     mapM (numpy_sqrt L) (seq_items beta) = Ok r ->
     _gauss_from_coefficients_numpy L alpha beta = Raise ValueError) /\
  (forall mp, (2 <= length (values alpha))%nat ->
     (length (values beta) < length (values alpha))%nat ->
     is_ok (mpmath_body L mp alpha beta) = false /\
     ((forall bt, In bt (seq_items beta) -> is_ok (mp_sqrt L mp bt) = true) ->
      mpmath_body L mp alpha beta = Raise IndexError)).
Proof.
  intros Hne.
  assert (Htri : _sympy_tridiag (values alpha)
                   (map (sympy_sqrt L) (values beta)) = Raise AssertionError).
  { unfold _sympy_tridiag. rewrite length_map.
    destruct (Nat.eqb_spec (length (values alpha)) (length (values beta)));
      [contradiction | reflexivity]. }
  split; [|split].
  - split.
    + unfold _gauss_from_coefficients_sympy, sympy_matrix.
      destruct (getitem (seq_items alpha) 0) as [a0|e]; simpl; [|reflexivity].
      destruct (negb (is_Rational (fst a0))); [reflexivity|].
      rewrite Htri. reflexivity.
    + intros t v rest E Ht.
      unfold _gauss_from_coefficients_sympy, sympy_matrix, getitem.
      rewrite E. simpl. rewrite Ht. simpl. rewrite Htri. reflexivity.
  - assert (Hband : forall r, mapM (numpy_sqrt L) (seq_items beta) = Ok r ->
                (length r =? length (values alpha))%nat = false).
    { intros r Hr. apply mapM_length in Hr. destruct Hr as [Hr _].
      apply Nat.eqb_neq. rewrite Hr, <- values_length. congruence. }
    split.
    + unfold _gauss_from_coefficients_numpy, numpy_band.
      destruct (negb (is_ndarray alpha)); [reflexivity|].
      destruct (negb (is_ndarray beta)); [reflexivity|].
      destruct (mapM (numpy_sqrt L) (seq_items beta)) as [r|e] eqn:Er; simpl;
        [|reflexivity].
      rewrite (Hband r eq_refl). reflexivity.
    + intros r Ha Hb Hr. unfold _gauss_from_coefficients_numpy, numpy_band.
      rewrite Ha, Hb, Hr. simpl. rewrite (Hband r Hr). reflexivity.
  - intros mp H2 Hlt.
    destruct (mpmath_offdiag_short mp H2 Hlt) as [i [Hi Hget]].
    split.
    + assert (Hf : is_ok (mpmath_offdiag L mp (length (values alpha))
                            (seq_items beta)) = false).
      { apply foldM_stops. exists i. split; [assumption|].
        intros b0. rewrite Hget. reflexivity. }
      unfold mpmath_body.
      destruct (mpmath_offdiag L mp (length (values alpha)) (seq_items beta))
        as [b|e]; [discriminate | reflexivity].
    + intros Hsqrt. unfold mpmath_body.
      replace (mpmath_offdiag L mp (length (values alpha)) (seq_items beta))
        with (@Raise (list number) IndexError); [reflexivity|].
      symmetry. unfold mpmath_offdiag. apply foldM_raises.
      * intros b j _.
        destruct (getitem (seq_items beta) (j + 1)) as [bt|e] eqn:E; simpl.
        -- right. assert (Hin : In bt (seq_items beta)).
           { unfold getitem in E.
             destruct (nth_error (seq_items beta) (j + 1)) as [bt'|] eqn:En;
               [|discriminate].
             injection E as <-. apply (nth_error_In _ _ En). }
           specialize (Hsqrt bt Hin).
           destruct (mp_sqrt L mp bt) as [s|e]; [|discriminate].
           simpl. eexists. reflexivity.
        -- left. unfold getitem in E.
           destruct (nth_error (seq_items beta) (j + 1)); [discriminate|].
           injection E as <-. reflexivity.
      * exists i. split; [assumption|]. intros b. rewrite Hget. reflexivity.
Qed.

(** X9.  The arbitrary-precision backend reads [beta[0 .. n-1]] only, [n]
    the length of [alpha]: on [beta] cut to its first [n] elements it
    gives the same result, whatever follows them. *)
Theorem mpmath_ignores_surplus (mp : mp_context) (decimal_places : positive) :
  mpmath_body L mp alpha (prefix (length (values alpha)) beta) =
  mpmath_body L mp alpha beta /\
  custom L alpha (prefix (length (values alpha)) beta) "mpmath" decimal_places mp =
  custom L alpha beta "mpmath" decimal_places mp.
Proof.
  assert (Hbody : forall mp1,
            mpmath_body L mp1 alpha (prefix (length (values alpha)) beta) =
            mpmath_body L mp1 alpha beta).
  { intros mp1. unfold mpmath_body.
    change (seq_items (prefix (length (values alpha)) beta))
      with (firstn (length (values alpha)) (seq_items beta)).
    remember (length (values alpha)) as n eqn:En. clear En.
    replace (mpmath_offdiag L mp1 n (firstn n (seq_items beta)))
      with (mpmath_offdiag L mp1 n (seq_items beta)).
    2:{ unfold mpmath_offdiag. apply foldM_ext_in. intros b i Hi.
        apply in_seq in Hi. rewrite getitem_firstn by lia. reflexivity. }
    destruct (mpmath_offdiag L mp1 n (seq_items beta)) as [b|e]; simpl;
      [|reflexivity].
    destruct n as [|n']; [reflexivity|].
    unfold mpmath_collect.
    rewrite (getitem_firstn (seq_items beta) (S n') 0) by lia. reflexivity. }
  split; [apply Hbody|].
  rewrite !custom_mpmath, Hbody. reflexivity.
Qed.

(** X10.  On an empty [alpha] no backend returns a rule: the exact and the
    arbitrary-precision backend raise IndexError, and the floating backend
    raises as well, whatever the libraries answer. *)
Theorem custom_empty_alpha (mode : string) (decimal_places : positive)
  (mp : mp_context) :
  values alpha = [] ->
  fst (custom L alpha beta "sympy" decimal_places mp) = Raise IndexError /\
  fst (custom L alpha beta "mpmath" decimal_places mp) = Raise IndexError /\
  is_ok (fst (custom L alpha beta mode decimal_places mp)) = false.
Proof.
  intros Ha.
  assert (Hitems : seq_items alpha = [])
    by (unfold values in Ha; apply map_eq_nil in Ha; exact Ha).
  assert (Hs : _gauss_from_coefficients_sympy L alpha beta = Raise IndexError).
  { unfold _gauss_from_coefficients_sympy, sympy_matrix, getitem.
    rewrite Hitems. reflexivity. }
  assert (Hm : forall mp1, mpmath_body L mp1 alpha beta = Raise IndexError).
  { intros mp1. unfold mpmath_body. rewrite Ha. reflexivity. }
  assert (Hn : is_ok (_gauss_from_coefficients_numpy L alpha beta) = false).
  { unfold _gauss_from_coefficients_numpy, numpy_band. rewrite Ha.
    destruct (negb (is_ndarray alpha)); [reflexivity|].
    destruct (negb (is_ndarray beta)); [reflexivity|].
    destruct (mapM (numpy_sqrt L) (seq_items beta)) as [r|e] eqn:Er; simpl;
      [|reflexivity].
    apply mapM_length in Er. destruct Er as [Er _].
    destruct r as [|r0 r]; [|reflexivity]. simpl.
    destruct (seq_items beta) as [|b0 rest]; [|discriminate].
    destruct (eig_banded L _) as [[x V]|e]; reflexivity. }
  split; [|split].
  - rewrite custom_sympy. exact Hs.
  - rewrite custom_mpmath. apply Hm.
  - unfold custom, lift, _gauss_from_coefficients_mpmath.
    destruct (mode =? "sympy")%string; [simpl; rewrite Hs; reflexivity|].
    destruct (mode =? "mpmath")%string; [simpl; rewrite Hm; reflexivity|].
    destruct (mode =? "numpy")%string; simpl; [exact Hn | reflexivity].
Qed.

End Lengths.

Section LengthsExamples.

Import Schemes Contract.

(** [alpha = [9, 16]] against [beta = [25]]. *)
Lemma length_mismatch_errors_witness :
  _gauss_from_coefficients_sympy Demo.lib (Demo.rationals [9; 16])
    (Demo.rationals [25]) = Raise AssertionError /\
  _gauss_from_coefficients_numpy Demo.lib (Demo.floats [9; 16])
    (Demo.floats [25]) = Raise ValueError /\
  mpmath_body Demo.lib Demo.mp0 (Demo.rationals [9; 16]) (Demo.rationals [25])
  = Raise IndexError.
Proof.
  assert (Hr : length (values (Demo.rationals [9; 16])) <>
               length (values (Demo.rationals [25]))) by (simpl; lia).
  assert (Hf : length (values (Demo.floats [9; 16])) <>
               length (values (Demo.floats [25]))) by (simpl; lia).
  split; [|split].
  - apply (proj2 (proj1 (length_mismatch_errors Demo.lib
             (Demo.rationals [9; 16]) (Demo.rationals [25]) Hr))
             SympyRational 9 [(SympyRational, 16)]); reflexivity.
  - apply (proj2 (proj1 (proj2 (length_mismatch_errors Demo.lib
             (Demo.floats [9; 16]) (Demo.floats [25]) Hf)))
             [Demo.root (NumpyFloat, 25)]); reflexivity.
  - apply (proj2 (proj2 (length_mismatch_errors Demo.lib
             (Demo.rationals [9; 16]) (Demo.rationals [25]) Hr))
             Demo.mp0); [simpl; lia | simpl; lia | intros bt _; reflexivity].
Defined.

Lemma custom_empty_alpha_witness :
  fst (custom Demo.lib (Demo.rationals []) (Demo.rationals [25]) "sympy" 32
         Demo.mp0) = Raise IndexError /\
  fst (custom Demo.lib (Demo.rationals []) (Demo.rationals [25]) "mpmath" 32
         Demo.mp0) = Raise IndexError /\
  is_ok (fst (custom Demo.lib (Demo.rationals []) (Demo.rationals [25]) "numpy"
                32 Demo.mp0)) = false.
Proof.
  exact (custom_empty_alpha Demo.lib (Demo.rationals []) (Demo.rationals [25])
           "numpy" 32 Demo.mp0 eq_refl).
Defined.

End LengthsExamples.

(* ================================================================== *)
(** * The shape of the rules of the convenience wrappers *)

Section WrapperRules.

Import Schemes Contract.

Variable L : libraries.
Variable RC : recurrence_coefficients.
Variable decimal_places : positive.
Variable mp : mp_context.

(** What holds of a rule the arbitrary-precision backend returns for
    [alpha]. *)
Let shaped (alpha : pyseq) (r : rule) (mp' : mp_context) : Prop :=
  (exists x w, r = Arrays x w /\
     length x = length (values alpha) /\
     length w = length (values alpha)) /\
  mp' = mk_mp decimal_places.

(** [tridiag_eigen] works in place on [d] and [z], which keep their
    shape. *)
Let in_place (alpha : pyseq) : Prop :=
  forall d e z out,
    length d = length (values alpha) ->
    length (concat z) = length (values alpha) ->
    tridiag_eigen L (mk_mp decimal_places) d e z = Ok out ->
    keeps_shape (length (values alpha)) out.

Lemma mpmath_shaped (alpha beta : pyseq) (r : rule) (mp' : mp_context) :
  in_place alpha ->
  custom L alpha beta "mpmath" decimal_places mp = (Ok r, mp') ->
  shaped alpha r mp'.
Proof.
  intros Hshape H. rewrite custom_mpmath in H. injection H as H <-.
  split; [|reflexivity].
  apply mpmath_body_iff in H.
  destruct H as [b [z [d [d' [z' [w [_ [Hz [Hd [Ht [Hw ->]]]]]]]]]]].
  apply mapM_length in Hd. destruct Hd as [Hd _].
  apply mpmath_z_unit in Hz. destruct Hz as [Hn ->].
  apply mapM_length in Hw. destruct Hw as [Hw _].
  assert (Hlz : length (concat [Finite 1 :: repeat (Finite 0)
                                  (length (values alpha) - 1)]) =
                length (values alpha)).
  { simpl. rewrite app_nil_r. simpl. rewrite repeat_length. lia. }
  assert (Hld : length d = length (values alpha))
    by (rewrite Hd; symmetry; apply length_map).
  destruct (Hshape d b _ (d', z') Hld Hlz Ht) as [Hd' Hz'].
  simpl in Hd', Hz'.
  exists (map (sympy_Float L (mk_mp decimal_places)) d'), w.
  split; [reflexivity|]. split; [rewrite length_map; exact Hd'|].
  rewrite Hw. exact Hz'.
Qed.

Lemma passing_shaped (rc : result (pyseq * pyseq)) (alpha beta : pyseq)
  (r : rule) (mp' : mp_context) :
  in_place alpha ->
  rc = Ok (alpha, beta) ->
  bindM (lift rc)
    (fun '(alpha, beta) => custom L alpha beta "mpmath" decimal_places) mp =
  (Ok r, mp') ->
  shaped alpha r mp'.
Proof.
  intros Hc -> H. unfold bindM, lift in H. apply (mpmath_shaped _ beta); assumption.
Qed.

Lemma rounding_shaped (rc : result (pyseq * pyseq)) (alpha beta : pyseq)
  (r : rule) (mp' : mp_context) :
  in_place alpha ->
  rc = Ok (alpha, beta) ->
  bindM (lift rc)
    (fun '(alpha, beta) =>
       bindM (lift (round_beta0 L beta decimal_places))
         (fun beta => custom L alpha beta "mpmath" decimal_places)) mp =
  (Ok r, mp') ->
  shaped alpha r mp'.
Proof.
  intros Hc -> H.
  unfold bindM, lift, round_beta0, getitem, setitem0, values in H.
  destruct (seq_items beta) as [|[t b0] rest] eqn:E; [discriminate|].
  cbn [map nth_error bind fst snd] in H.
  apply (mpmath_shaped _ _ _ _ Hc H).
Qed.

(** X11.  [tridiag_eigen] works in place, so [d] and [z] keep their
    shape.  Then a rule that any of the seven wrappers returns is a pair
    of arrays with one node and one weight per element of [alpha], and
    [mp.dps] is left at [decimal_places]. *)
Theorem wrappers_rule_shape (n : nat) (a b : R) (alpha beta : pyseq)
  (r : rule) (mp' : mp_context) :
  in_place alpha ->
  (rc_legendre RC n "sympy" = Ok (alpha, beta) ->
   legendre L RC n decimal_places mp = (Ok r, mp') -> shaped alpha r mp') /\
  (rc_jacobi RC n a b "sympy" = Ok (alpha, beta) ->
   jacobi L RC a b n decimal_places mp = (Ok r, mp') -> shaped alpha r mp') /\
  (rc_laguerre RC n = Ok (alpha, beta) ->
   laguerre L RC n decimal_places mp = (Ok r, mp') -> shaped alpha r mp') /\
  (rc_laguerre_generalized RC n a = Ok (alpha, beta) ->
   laguerre_generalized L RC n a decimal_places mp = (Ok r, mp') ->
   shaped alpha r mp') /\
  (rc_chebyshev1 RC n = Ok (alpha, beta) ->
   chebyshev1 L RC n decimal_places mp = (Ok r, mp') -> shaped alpha r mp') /\
  (rc_chebyshev2 RC n = Ok (alpha, beta) ->
   chebyshev2 L RC n decimal_places mp = (Ok r, mp') -> shaped alpha r mp') /\
  (rc_hermite RC n = Ok (alpha, beta) ->
   hermite L RC n decimal_places mp = (Ok r, mp') -> shaped alpha r mp').
Proof.
  intros Hc.
  split; [intros Hrc H; apply (passing_shaped _ _ _ _ _ Hc Hrc H)|].
  split; [intros Hrc H; apply (passing_shaped _ _ _ _ _ Hc Hrc H)|].
  split; [intros Hrc H; apply (passing_shaped _ _ _ _ _ Hc Hrc H)|].
  split; [intros Hrc H; apply (passing_shaped _ _ _ _ _ Hc Hrc H)|].
  split; [intros Hrc H; apply (rounding_shaped _ _ _ _ _ Hc Hrc H)|].
  split; intros Hrc H; apply (rounding_shaped _ _ _ _ _ Hc Hrc H).
Qed.

End WrapperRules.

Section WrapperRulesExample.

Import Schemes Contract.

(** [hermite] on the concrete provider. *)
Lemma wrappers_rule_shape_witness :
  (exists x w,
     Arrays [Finite 0; Finite 25] [Finite 16; Finite 9] = Arrays x w /\
     length x = length (values (Demo.rationals [9; 16])) /\
     length w = length (values (Demo.rationals [9; 16]))) /\
  mk_mp 32 = mk_mp 32.
Proof.
  assert (Hshape : forall d e z out,
            length d = length (values (Demo.rationals [9; 16])) ->
            length (concat z) = length (values (Demo.rationals [9; 16])) ->
            tridiag_eigen Demo.lib (mk_mp 32) d e z = Ok out ->
            keeps_shape (length (values (Demo.rationals [9; 16]))) out).
  { intros d e z out _ _ H. injection H as <-. split; reflexivity. }
  apply (proj2 (proj2 (proj2 (proj2 (proj2 (proj2
           (wrappers_rule_shape Demo.lib Demo.rc 32 Demo.mp0 2%nat 0 0
              (Demo.rationals [9; 16]) (Demo.rationals [25; 144])
              (Arrays [Finite 0; Finite 25] [Finite 16; Finite 9])
              (mk_mp 32) Hshape))))))).
  - reflexivity.
  - cbn. unfold _gauss_from_coefficients_mpmath. f_equal.
    unfold mpmath_body. cbn. repeat f_equal; field.
Defined.

End WrapperRulesExample.


(* ================================================================== *)
(** * The standardization of the Gaussian product evaluator *)

Section Standardization.

Import Enr2.

Variable X : Type.
Variable dtype_is_Basic : X -> bool.

Lemma lookup_rc_ok (s : string) :
  is_ok (lookup_rc s) = true <->
  s = "probabilists"%string \/ s = "physicists"%string.
Proof.
  unfold lookup_rc.
  destruct (String.eqb_spec s "probabilists") as [->|H1];
    [split; [left; reflexivity | reflexivity]|].
  destruct (String.eqb_spec s "physicists") as [->|H2];
    [split; [right; reflexivity | reflexivity]|].
  simpl. split; [discriminate | intros [E | E]; contradiction].
Qed.

(** X12.  [Eval] and [EvalWithDegrees] accept the standardizations
    ["probabilists"] and ["physicists"] and no other: any other string
    raises KeyError.  The two constructors hand their bases the same
    arguments, the points are passed on unchanged, and an explicit
    [symbolic] flag is used as it is, whatever the dtype of the points. *)
Theorem enr2_standardization (x : X) (standardization : string)
  (symbolic : symbolic_arg) :
  (is_ok (Eval X dtype_is_Basic x standardization symbolic) = true <->
   standardization = "probabilists"%string \/
   standardization = "physicists"%string) /\
  (is_ok (Eval X dtype_is_Basic x standardization symbolic) = false ->
   Eval X dtype_is_Basic x standardization symbolic = Raise KeyError) /\
  EvalWithDegrees X dtype_is_Basic x standardization symbolic =
  Eval X dtype_is_Basic x standardization symbolic /\
  (forall args, Eval X dtype_is_Basic x standardization symbolic = Ok args ->
     points args = x /\ snd (rc args) = Enr2.symbolic args) /\
  (forall (dtype' : X -> bool) (flag : bool),
     Eval X dtype' x standardization (Flag flag) =
     Eval X dtype_is_Basic x standardization (Flag flag) /\
     forall args, Eval X dtype' x standardization (Flag flag) = Ok args ->
       Enr2.symbolic args = flag).
Proof.
  pose proof (lookup_rc_ok standardization) as Hok.
  unfold Eval, EvalWithDegrees.
  destruct (lookup_rc standardization) as [cls|e] eqn:E; simpl in *.
  - split; [exact Hok|]. split; [discriminate|]. split; [reflexivity|].
    split.
    + intros args H. injection H as <-. split; reflexivity.
    + intros dtype' flag. split; [reflexivity|].
      intros args H. injection H as <-. reflexivity.
  - split; [exact Hok|]. split.
    + intros _. unfold lookup_rc in E.
      destruct (standardization =? "probabilists")%string; [discriminate|].
      destruct (standardization =? "physicists")%string; [discriminate|].
      injection E as <-. reflexivity.
    + split; [reflexivity|]. split; [discriminate|].
      intros dtype' flag. split; [reflexivity | discriminate].
Qed.

End Standardization.
